(** * TruthOrDare: the question repository (database.go)

    A shallow embedding of [GetQuestions] and [AddQuestion] together with a
    model of the relational engine they talk to.  The Go code only builds a
    statement text and an argument list; what the statement means is decided
    by the engine, which reads the text, binds the arguments to the [?]
    placeholders in the order they occur in the text, and evaluates the joins,
    filters and groups over the three tables of the schema (init.sql). *)

From Stdlib Require Import String Ascii List ZArith Bool Arith Lia.
Import ListNotations.

Open Scope list_scope.
Open Scope string_scope.

(** ** Go values *)

(** A Go slice is either nil or allocated; [append] allocates. *)
Inductive slice (A : Type) : Type :=
| nil_slice
| mk_slice (elems : list A).
Arguments nil_slice {A}.
Arguments mk_slice {A} elems.

Definition elems {A} (s : slice A) : list A :=
  match s with
  | nil_slice => []
  | mk_slice l => l
  end.

Definition append_slice {A} (s : slice A) (x : A) : slice A :=
  mk_slice (elems s ++ [x]).

(** An element of [[]interface{}]: the program passes strings and one int. *)
Inductive arg : Type :=
| AString (s : string)
| AInt (n : Z).

(** Go's [error] values are carried by their message. *)
Inductive result (A : Type) : Type :=
| Ok (a : A)
| Err (msg : string).
Arguments Ok {A} a.
Arguments Err {A} msg.

(** main.go *)
Record Question : Type := mkQuestion {
  ID : Z;
  Language : string;
  Type_ : string;
  Task : string;
  Tags : slice string
}.

Record QueryConfig : Type := mkQueryConfig {
  MatchAllTags : bool
}.

(** ** The [strings] functions the program calls *)

Module strings.

Fixpoint Repeat (s : string) (count : nat) : string :=
  match count with
  | O => ""
  | S n => s ++ Repeat s n
  end.

Fixpoint Join (elems : list string) (sep : string) : string :=
  match elems with
  | [] => ""
  | [e] => e
  | e :: rest => e ++ sep ++ Join rest sep
  end.

(** [strings.Split] for a separator of one character, the only use the
    program makes of it: [n] separators give [n + 1] pieces, and the empty
    string gives one empty piece. *)
Fixpoint Split (s : string) (sep : ascii) : list string :=
  match s with
  | EmptyString => [""]
  | String c s' =>
      if Ascii.eqb c sep then "" :: Split s' sep
      else match Split s' sep with
           | [] => [String c ""]
           | piece :: pieces => String c piece :: pieces
           end
  end.

End strings.

(** ** The query text and argument list of [GetQuestions] (lines 100-150) *)

Definition LF : string := String (ascii_of_nat 10) "".
Definition TAB : string := String (ascii_of_nat 9) "".

Definition select_from : string :=
  LF ++ TAB ++ TAB ++ "SELECT DISTINCT q.id, q.language, q.type, q.task, GROUP_CONCAT(t.name) as tags" ++
  LF ++ TAB ++ TAB ++ "FROM questions q" ++
  LF ++ TAB ++ TAB ++ "LEFT JOIN question_tags qt ON q.id = qt.question_id" ++
  LF ++ TAB ++ TAB ++ "LEFT JOIN tags t ON qt.tag_id = t.id".

(** The format string of the ALL-mode join, cut at its [%s]. *)
Definition matching_head : string :=
  LF ++ TAB ++ TAB ++ TAB ++ TAB ++ "INNER JOIN (" ++
  LF ++ TAB ++ TAB ++ TAB ++ TAB ++ TAB ++ "SELECT qt.question_id" ++
  LF ++ TAB ++ TAB ++ TAB ++ TAB ++ TAB ++ "FROM question_tags qt" ++
  LF ++ TAB ++ TAB ++ TAB ++ TAB ++ TAB ++ "INNER JOIN tags t ON qt.tag_id = t.id" ++
  LF ++ TAB ++ TAB ++ TAB ++ TAB ++ TAB ++ "WHERE t.name IN (?".

Definition matching_tail : string :=
  ")" ++
  LF ++ TAB ++ TAB ++ TAB ++ TAB ++ TAB ++ "GROUP BY qt.question_id" ++
  LF ++ TAB ++ TAB ++ TAB ++ TAB ++ TAB ++ "HAVING COUNT(DISTINCT t.name) = ?" ++
  LF ++ TAB ++ TAB ++ TAB ++ TAB ++ ") matching_tags ON q.id = matching_tags.question_id".

Definition match_all (config : option QueryConfig) : bool :=
  match config with
  | Some c => MatchAllTags c
  | None => false
  end.

Definition nonempty (s : string) : bool := negb (s =? "").

(** The state of the builder: the text so far, the WHERE conditions, the
    arguments. *)
Record builder : Type := mkBuilder {
  baseQuery : string;
  whereConditions : list string;
  args : list arg
}.

Definition add_language (language : string) (b : builder) : builder :=
  if nonempty language
  then mkBuilder (baseQuery b)
                 (whereConditions b ++ ["q.language = ?"])
                 (args b ++ [AString language])
  else b.

Definition add_type (qType : string) (b : builder) : builder :=
  if nonempty qType
  then mkBuilder (baseQuery b)
                 (whereConditions b ++ ["q.type = ?"])
                 (args b ++ [AString qType])
  else b.

Definition add_tags (tags : list string) (config : option QueryConfig)
    (b : builder) : builder :=
  if (0 <? length tags)%nat then
    if match_all config then
      mkBuilder
        (baseQuery b ++
           (matching_head ++ strings.Repeat ",?" (length tags - 1) ++ matching_tail))
        (whereConditions b)
        ((args b ++ map AString tags) ++ [AInt (Z.of_nat (length tags))])
    else
      mkBuilder
        (baseQuery b)
        (whereConditions b ++
           [("t.name IN (?" ++ strings.Repeat ",?" (length tags - 1) ++ ")")%string])
        (args b ++ map AString tags)
  else b.

Definition add_where (b : builder) : builder :=
  if (0 <? length (whereConditions b))%nat
  then mkBuilder (baseQuery b ++ (" WHERE " ++ strings.Join (whereConditions b) " AND "))
                 (whereConditions b) (args b)
  else b.

Definition add_group_by (b : builder) : builder :=
  mkBuilder (baseQuery b ++ " GROUP BY q.id") (whereConditions b) (args b).

Definition GetQuestions_query (language qType : string) (tags : list string)
    (config : option QueryConfig) : string * list arg :=
  let b := mkBuilder select_from [] [] in
  let b := add_language language b in
  let b := add_type qType b in
  let b := add_tags tags config b in
  let b := add_where b in
  let b := add_group_by b in
  (baseQuery b, args b).

(** ** Storage: the three tables of init.sql *)

Record question_row : Type := mkQuestionRow {
  q_id : Z;
  q_language : string;
  q_type : string;
  q_task : string
}.

Record tag_row : Type := mkTagRow {
  t_id : Z;
  t_name : string
}.

Record link_row : Type := mkLink {
  qt_question_id : Z;
  qt_tag_id : Z
}.

Record storage : Type := mkStorage {
  questions : list question_row;
  tags : list tag_row;
  question_tags : list link_row
}.

(** ** The engine *)

(** What the program does not decide and the engine does: when two texts are
    the same name (the collation of the column, given by its sort key; the
    identity is a binary collation), and whether a text equals a number when
    a placeholder receives a value of the other kind (the engine's implicit
    conversion, which depends on the column). *)
Inductive column : Type := ColLanguage | ColType | ColTagName | ColTagCount.

Record engine : Type := mkEngine {
  collation_key : string -> string;
  implicit_eq : column -> string -> Z -> bool
}.

(** An engine with a binary collation that never equates a text with a
    number. *)
Definition binary_collation : engine :=
  mkEngine (fun s => s) (fun _ _ _ => false).

(** *** Reading the statement text *)

Fixpoint strip_prefix (p s : string) : option string :=
  match p with
  | EmptyString => Some s
  | String a p' =>
      match s with
      | EmptyString => None
      | String b s' => if Ascii.eqb a b then strip_prefix p' s' else None
      end
  end.

(** The [,?] repetitions at the head of [s], and what follows them. *)
Fixpoint more_marks (s : string) : nat * string :=
  match s with
  | String "," (String "?" s') => let (n, r) := more_marks s' in (S n, r)
  | _ => (O, s)
  end.

(** A WHERE condition; [PTagIn n] is an IN list of [n] placeholders. *)
Inductive predicate : Type :=
| PLanguage
| PType
| PTagIn (n : nat).

(** The statements of the program's family: the select over the two left
    joins, an optional join with the [matching_tags] subquery whose IN list
    has [n] placeholders, an optional conjunction, and the grouping.  The
    engine of this model reads these texts and refuses any other. *)
Record statement : Type := mkStatement {
  st_matching : option nat;
  st_where : list predicate
}.

Definition parse_predicate (s : string) : option (predicate * string) :=
  match strip_prefix "q.language = ?" s with
  | Some r => Some (PLanguage, r)
  | None =>
      match strip_prefix "q.type = ?" s with
      | Some r => Some (PType, r)
      | None =>
          match strip_prefix "t.name IN (?" s with
          | Some r =>
              let (n, r') := more_marks r in
              match strip_prefix ")" r' with
              | Some r'' => Some (PTagIn (S n), r'')
              | None => None
              end
          | None => None
          end
      end
  end.

Fixpoint parse_conjunction (fuel : nat) (s : string)
    : option (list predicate * string) :=
  match fuel with
  | O => None
  | S fuel' =>
      match parse_predicate s with
      | None => None
      | Some (p, r) =>
          match strip_prefix " AND " r with
          | None => Some ([p], r)
          | Some r' =>
              match parse_conjunction fuel' r' with
              | Some (ps, r'') => Some (p :: ps, r'')
              | None => None
              end
          end
      end
  end.

Definition parse_matching (s : string) : option (option nat * string) :=
  match strip_prefix matching_head s with
  | None => Some (None, s)
  | Some r =>
      let (n, r') := more_marks r in
      match strip_prefix matching_tail r' with
      | Some r'' => Some (Some (S n), r'')
      | None => None
      end
  end.

Definition parse_where (s : string) : option (list predicate * string) :=
  match strip_prefix " WHERE " s with
  | None => Some ([], s)
  | Some r => parse_conjunction (String.length r) r
  end.

Definition parse_statement (text : string) : option statement :=
  match strip_prefix select_from text with
  | None => None
  | Some r1 =>
      match parse_matching r1 with
      | None => None
      | Some (m, r2) =>
          match parse_where r2 with
          | None => None
          | Some (ps, r3) =>
              if r3 =? " GROUP BY q.id" then Some (mkStatement m ps) else None
          end
      end
  end.

(** *** Binding the arguments to the placeholders, in the order of the text *)

Inductive bound_predicate : Type :=
| BLanguage (v : arg)
| BType (v : arg)
| BTagIn (vs : list arg).

Record bound_statement : Type := mkBound {
  bs_matching : option (list arg * arg);
  bs_where : list bound_predicate
}.

Definition take (n : nat) (vs : list arg) : option (list arg * list arg) :=
  if (n <=? length vs)%nat then Some (firstn n vs, skipn n vs) else None.

Definition bind_matching (m : option nat) (vs : list arg)
    : option (option (list arg * arg) * list arg) :=
  match m with
  | None => Some (None, vs)
  | Some n =>
      match take n vs with
      | Some (names, v :: rest) => Some (Some (names, v), rest)
      | _ => None
      end
  end.

Fixpoint bind_where (ps : list predicate) (vs : list arg)
    : option (list bound_predicate * list arg) :=
  match ps with
  | [] => Some ([], vs)
  | p :: ps' =>
      let first :=
        match p, vs with
        | PLanguage, v :: rest => Some (BLanguage v, rest)
        | PType, v :: rest => Some (BType v, rest)
        | PTagIn n, _ =>
            match take n vs with
            | Some (names, rest) => Some (BTagIn names, rest)
            | None => None
            end
        | _, _ => None
        end in
      match first with
      | None => None
      | Some (b, rest) =>
          match bind_where ps' rest with
          | Some (bs, rest') => Some (b :: bs, rest')
          | None => None
          end
      end
  end.

(** Every placeholder receives one argument and no argument is left over. *)
Definition bind (st : statement) (vs : list arg) : option bound_statement :=
  match bind_matching (st_matching st) vs with
  | None => None
  | Some (m, rest) =>
      match bind_where (st_where st) rest with
      | Some (bs, []) => Some (mkBound m bs)
      | _ => None
      end
  end.

(** *** Evaluating a bound statement over the tables *)

(** A row of the select list; [c_tags] is the GROUP_CONCAT column, which is
    NULL ([None]) for a group without a tag name. *)
Record sql_row : Type := mkRow {
  c_id : Z;
  c_language : string;
  c_type : string;
  c_task : string;
  c_tags : option string
}.

(** A row of [questions q LEFT JOIN question_tags qt LEFT JOIN tags t], cut to
    the columns the statement uses: those of [q], and [t.name]. *)
Abbreviation joined := (question_row * option string)%type.

(** The right side of a left join: NULL when nothing matches. *)
Definition outer {A} (matches : list A) : list (option A) :=
  match matches with
  | [] => [None]
  | _ => map Some matches
  end.

Definition links_of (db : storage) (id : Z) : list link_row :=
  filter (fun l => (qt_question_id l =? id)%Z) (question_tags db).

Definition names_of_link (db : storage) (l : link_row) : list string :=
  map t_name (filter (fun t => (qt_tag_id l =? t_id t)%Z) (tags db)).

Definition join_question (db : storage) (q : question_row) : list joined :=
  flat_map
    (fun l : option link_row =>
       map (pair q)
         match l with
         | None => [None]
         | Some l => outer (names_of_link db l)
         end)
    (outer (links_of db (q_id q))).

Definition from_rows (db : storage) : list joined :=
  flat_map (join_question db) (questions db).

(** [question_tags qt INNER JOIN tags t], as (qt.question_id, t.name). *)
Definition link_names (db : storage) : list (Z * string) :=
  flat_map (fun l => map (pair (qt_question_id l)) (names_of_link db l))
    (question_tags db).

Definition non_null {A} (xs : list (option A)) : list A :=
  flat_map (fun o => match o with Some x => [x] | None => [] end) xs.

(** GROUP_CONCAT: the non-NULL values joined by a comma, NULL when there is
    none.  (The server's cap on the length of the result is not modelled.) *)
Definition group_concat (names : list (option string)) : option string :=
  match non_null names with
  | [] => None
  | ns => Some (strings.Join ns ",")
  end.

Section Evaluation.

Variable E : engine.

Definition same_name (a b : string) : bool :=
  (collation_key E a =? collation_key E b)%string.

(** [column = ?] for a text column. *)
Definition text_eq (c : column) (x : string) (v : arg) : bool :=
  match v with
  | AString s => same_name x s
  | AInt n => implicit_eq E c x n
  end.

(** [COUNT(...) = ?]. *)
Definition count_eq (n : nat) (v : arg) : bool :=
  match v with
  | AInt m => (Z.of_nat n =? m)%Z
  | AString s => implicit_eq E ColTagCount s (Z.of_nat n)
  end.

(** [t.name IN (?, ...)]. *)
Definition name_in (x : string) (vs : list arg) : bool :=
  existsb (text_eq ColTagName x) vs.

(** COUNT(DISTINCT t.name): names are distinct up to the collation. *)
Definition count_distinct (names : list string) : nat :=
  length (nodup string_dec (map (collation_key E) names)).

(** The [matching_tags] subquery: the question ids whose group of matched
    names has the requested count. *)
Definition matching_tags (db : storage) (names : list arg) (v : arg) : list Z :=
  let rows := filter (fun r => name_in (snd r) names) (link_names db) in
  filter
    (fun id =>
       count_eq
         (count_distinct (map snd (filter (fun r => (fst r =? id)%Z) rows))) v)
    (nodup Z.eq_dec (map fst rows)).

(** [... INNER JOIN matching_tags ON q.id = matching_tags.question_id]. *)
Definition inner_join (rows : list joined) (ids : list Z) : list joined :=
  flat_map
    (fun r => map (fun _ => r) (filter (fun id => (q_id (fst r) =? id)%Z) ids))
    rows.

Definition holds (r : joined) (p : bound_predicate) : bool :=
  match p with
  | BLanguage v => text_eq ColLanguage (q_language (fst r)) v
  | BType v => text_eq ColType (q_type (fst r)) v
  | BTagIn vs =>
      match snd r with
      | Some n => name_in n vs
      | None => false
      end
  end.

(** [GROUP BY q.id] with the select list; one row per id, so that DISTINCT
    removes nothing. *)
Definition select_group (rows : list joined) (id : Z) : list sql_row :=
  match filter (fun r => (q_id (fst r) =? id)%Z) rows with
  | [] => []
  | (q, n) :: rest =>
      [mkRow (q_id q) (q_language q) (q_type q) (q_task q)
         (group_concat (n :: map snd rest))]
  end.

(** The groups come in the order of the rows; the program asks for no
    order. *)
Definition group_by_id (rows : list joined) : list sql_row :=
  flat_map (select_group rows)
    (nodup Z.eq_dec (map (fun r => q_id (fst r)) rows)).

(** The rows that reach the grouping: those of the left joins, joined with
    [matching_tags] when the statement has the subquery, that pass every
    condition of the WHERE clause. *)
Definition selected (db : storage) (b : bound_statement) : list joined :=
  filter (fun r => forallb (holds r) (bs_where b))
    match bs_matching b with
    | None => from_rows db
    | Some (names, v) => inner_join (from_rows db) (matching_tags db names v)
    end.

Definition evaluate (db : storage) (b : bound_statement) : list sql_row :=
  group_by_id (selected db b).

End Evaluation.

(** *** The driver: [db.Query], [rows.Next], [rows.Scan], [rows.Err] *)

(** What can go wrong on the way, left to the environment: the statement is
    refused, the row at some position cannot be scanned, the connection is
    lost after some rows have been delivered. *)
Record faults : Type := mkFaults {
  query_fails : option string;
  scan_fails : nat -> option string;
  lost_after : option (nat * string)
}.

Definition no_faults : faults := mkFaults None (fun _ => None) None.

Inductive fetch : Type :=
| Fetched (r : sql_row)
| Undecodable (e : string).

(** The cursor: the rows [Next] will deliver before it returns false, and
    what [Err] reports afterwards. *)
Record Rows : Type := mkRows {
  pending : list fetch;
  rows_Err : option string
}.

Definition deliver (fl : faults) (rs : list sql_row) : Rows :=
  let events :=
    map (fun ir : nat * sql_row =>
           match scan_fails fl (fst ir) with
           | Some e => Undecodable e
           | None => Fetched (snd ir)
           end)
      (combine (seq 0 (length rs)) rs) in
  match lost_after fl with
  | Some (k, e) =>
      if (k <? length rs)%nat then mkRows (firstn k events) (Some e)
      else mkRows events None
  | None => mkRows events None
  end.

Definition Query (E : engine) (fl : faults) (db : storage) (text : string)
    (vs : list arg) : string + Rows :=
  match query_fails fl with
  | Some e => inl e
  | None =>
      match parse_statement text with
      | None => inl "You have an error in your SQL syntax"
      | Some st =>
          match bind st vs with
          | None => inl "sql: wrong number of arguments"
          | Some b => inr (deliver fl (evaluate E db b))
          end
      end
  end.

(** ** [GetQuestions] (lines 152-174) *)

Definition scan (r : sql_row) : Question :=
  mkQuestion (c_id r) (c_language r) (c_type r) (c_task r)
    match c_tags r with
    | Some s => mk_slice (strings.Split s ",")
    | None => mk_slice []
    end.

(** [for rows.Next() { ... }] followed by [return questions, nil]: the loop
    ends when [Next] returns false, and [rows.Err()] is not consulted. *)
Fixpoint scan_rows (pending : list fetch) (questions : slice Question)
    : result (slice Question) :=
  match pending with
  | [] => Ok questions
  | Fetched r :: rest => scan_rows rest (append_slice questions (scan r))
  | Undecodable e :: _ => Err ("failed to parse question: " ++ e)
  end.

Definition GetQuestions (E : engine) (fl : faults) (db : storage)
    (language qType : string) (tags : list string)
    (config : option QueryConfig) : result (slice Question) :=
  let (baseQuery, args) := GetQuestions_query language qType tags config in
  match Query E fl db baseQuery args with
  | inl e => Err ("failed to fetch questions: " ++ e)
  | inr rows => scan_rows (pending rows) nil_slice
  end.

(** ** [AddQuestion] (lines 225-272) *)

(** The calls [AddQuestion] makes on the connection. *)
Inductive call : Type :=
| CBegin
| CInsertQuestion
| CQuestionId
| CSelectTag (name : string)
| CInsertTag (name : string)
| CTagId
| CInsertLink (question_id tag_id : Z)
| CCommit.

(** AUTO_INCREMENT counters; the engine does not restore them on rollback. *)
Record sequences : Type := mkSequences {
  next_question_id : Z;
  next_tag_id : Z
}.

(** The connection: the tables as its statements see them, the tables as they
    were when the open transaction began (if one is open), the counters, the
    number of calls made so far, and what each call answered. *)
Record connection : Type := mkConnection {
  store : storage;
  snapshot : option storage;
  counters : sequences;
  clock : nat;
  journal : list (call * option string)
}.

(** The environment's part in a write: the [n]-th call on the connection
    fails with the given message (lost connection, lock timeout, a value the
    engine refuses).  Constraint violations are the engine's own and need no
    plan. *)
Definition plan : Type := nat -> option string.

Definition no_failures : plan := fun _ => None.

(** One call: it fails if the plan says so, else if the engine refuses it
    ([refused]); it is counted and recorded either way. *)
Definition attempt (fp : plan) (k : call) (refused : option string)
    (c : connection) : option string * connection :=
  let answer :=
    match fp (clock c) with
    | Some e => Some e
    | None => refused
    end in
  (answer,
   mkConnection (store c) (snapshot c) (counters c) (S (clock c))
     (journal c ++ [(k, answer)])).

Definition with_store (c : connection) (s : storage) : connection :=
  mkConnection s (snapshot c) (counters c) (clock c) (journal c).

Definition with_counters (c : connection) (n : sequences) : connection :=
  mkConnection (store c) (snapshot c) n (clock c) (journal c).

Definition Begin (fp : plan) (c : connection) : option string * connection :=
  let (e, c) := attempt fp CBegin None c in
  match e with
  | Some _ => (e, c)
  | None =>
      (None,
       mkConnection (store c) (Some (store c)) (counters c) (clock c) (journal c))
  end.

(** [tx.Rollback()]: the tables are again those of the snapshot.  Its own
    error is ignored by the program. *)
Definition Rollback (c : connection) : connection :=
  match snapshot c with
  | Some s => mkConnection s None (counters c) (clock c) (journal c)
  | None => c
  end.

(** [tx.Commit()]: a commit that fails leaves nothing of the transaction. *)
Definition Commit (fp : plan) (c : connection) : option string * connection :=
  let (e, c) := attempt fp CCommit None c in
  match e with
  | Some _ => (e, Rollback c)
  | None =>
      (None, mkConnection (store c) None (counters c) (clock c) (journal c))
  end.

Definition duplicate_entry : string := "Duplicate entry".

Definition has_question (s : storage) (id : Z) : bool :=
  existsb (fun q => (q_id q =? id)%Z) (questions s).

Definition has_tag_id (s : storage) (id : Z) : bool :=
  existsb (fun t => (t_id t =? id)%Z) (tags s).

Definition same_link (a b : link_row) : bool :=
  ((qt_question_id a =? qt_question_id b)%Z && (qt_tag_id a =? qt_tag_id b)%Z)%bool.

Definition has_link (s : storage) (l : link_row) : bool :=
  existsb (same_link l) (question_tags s).

Section Writes.

Variable E : engine.
Variable fp : plan.

Definition find_tag (s : storage) (name : string) : option tag_row :=
  find (fun t => same_name E (t_name t) name) (tags s).

(** [INSERT INTO questions (language, type, task) VALUES (?, ?, ?)] with
    the id the call reports; PRIMARY KEY (id). *)
Definition insert_question (language qType task : string) (c : connection)
    : (string + Z) * connection :=
  let id := next_question_id (counters c) in
  let (e, c) :=
    attempt fp CInsertQuestion
      (if has_question (store c) id then Some duplicate_entry else None) c in
  match e with
  | Some e => (inl e, c)
  | None =>
      let s := store c in
      let c := with_store c
                 (mkStorage (questions s ++ [mkQuestionRow id language qType task])
                    (tags s) (question_tags s)) in
      let c := with_counters c
                 (mkSequences (id + 1) (next_tag_id (counters c))) in
      (inr id, c)
  end.

(** [INSERT INTO tags (name) VALUES (?)]; PRIMARY KEY (id), UNIQUE (name). *)
Definition insert_tag (name : string) (c : connection)
    : (string + Z) * connection :=
  let id := next_tag_id (counters c) in
  let (e, c) :=
    attempt fp (CInsertTag name)
      (if (has_tag_id (store c) id
           || match find_tag (store c) name with Some _ => true | None => false end)%bool
       then Some duplicate_entry else None) c in
  match e with
  | Some e => (inl e, c)
  | None =>
      let s := store c in
      let c := with_store c
                 (mkStorage (questions s) (tags s ++ [mkTagRow id name])
                    (question_tags s)) in
      let c := with_counters c
                 (mkSequences (next_question_id (counters c)) (id + 1)) in
      (inr id, c)
  end.

(** [INSERT INTO question_tags (question_id, tag_id) VALUES (?, ?)];
    PRIMARY KEY (question_id, tag_id). *)
Definition insert_link (question_id tag_id : Z) (c : connection)
    : option string * connection :=
  let l := mkLink question_id tag_id in
  let (e, c) :=
    attempt fp (CInsertLink question_id tag_id)
      (if has_link (store c) l then Some duplicate_entry else None) c in
  match e with
  | Some e => (Some e, c)
  | None =>
      let s := store c in
      (None,
       with_store c (mkStorage (questions s) (tags s) (question_tags s ++ [l])))
  end.

(** [result.LastInsertId()]. *)
Definition LastInsertId (k : call) (id : Z) (c : connection)
    : (string + Z) * connection :=
  let (e, c) := attempt fp k None c in
  match e with
  | Some e => (inl e, c)
  | None => (inr id, c)
  end.

(** [tx.QueryRow("SELECT id FROM tags WHERE name = ?", tag).Scan(&tagID)]:
    an error, or the id of the first row, [None] standing for
    [sql.ErrNoRows]. *)
Definition select_tag_id (name : string) (c : connection)
    : (string + option Z) * connection :=
  let (e, c) := attempt fp (CSelectTag name) None c in
  match e with
  | Some e => (inl e, c)
  | None => (inr (option_map t_id (find_tag (store c) name)), c)
  end.

(** Lines 245-261: the id of the tag, created when it does not exist.  On
    an error the transaction is rolled back and the message is returned. *)
Definition tag_id_for (tag : string) (c : connection)
    : (string + Z) * connection :=
  match select_tag_id tag c with
  | (inr None, c) =>
      match insert_tag tag c with
      | (inl e, c) => (inl ("failed to insert tag: " ++ e), Rollback c)
      | (inr id, c) =>
          match LastInsertId CTagId id c with
          | (inl e, c) => (inl ("failed to get tag ID: " ++ e), Rollback c)
          | (inr tagID, c) => (inr tagID, c)
          end
      end
  | (inl e, c) => (inl ("failed to query tag: " ++ e), Rollback c)
  | (inr (Some tagID), c) => (inr tagID, c)
  end.

(** Lines 244-269: the loop over [q.Tags]. *)
Fixpoint link_tags (questionID : Z) (tags : list string) (c : connection)
    : option string * connection :=
  match tags with
  | [] => (None, c)
  | tag :: rest =>
      match tag_id_for tag c with
      | (inl msg, c) => (Some msg, c)
      | (inr tagID, c) =>
          match insert_link questionID tagID c with
          | (Some e, c) =>
              (Some ("failed to insert question tag: " ++ e), Rollback c)
          | (None, c) => link_tags questionID rest c
          end
      end
  end.

Definition AddQuestion (q : Question) (c : connection)
    : option string * connection :=
  match Begin fp c with
  | (Some e, c) => (Some ("failed to begin transaction: " ++ e), c)
  | (None, c) =>
      match insert_question (Language q) (Type_ q) (Task q) c with
      | (inl e, c) => (Some ("failed to insert question: " ++ e), Rollback c)
      | (inr id, c) =>
          match LastInsertId CQuestionId id c with
          | (inl e, c) =>
              (Some ("failed to get last insert ID: " ++ e), Rollback c)
          | (inr questionID, c) =>
              match link_tags questionID (elems (Tags q)) c with
              | (Some msg, c) => (Some msg, c)
              | (None, c) => Commit fp c
              end
          end
      end
  end.

End Writes.

(** A connection with no transaction open. *)
Definition connect (s : storage) (n : sequences) : connection :=
  mkConnection s None n 0 [].

(** The rows of init.sql. *)
Definition init_sql : storage :=
  mkStorage
    [ mkQuestionRow 1 "en" "truth" "Have you ever lied to your best friend?";
      mkQuestionRow 2 "en" "dare" "Take a shot of vodka.";
      mkQuestionRow 3 "de" "truth" "Hast du jemals Essen gestohlen?";
      mkQuestionRow 4 "de" "dare" "Tanze für 1 Minute ohne Musik." ]
    [ mkTagRow 1 "18+"; mkTagRow 2 "alcohol"; mkTagRow 3 "food" ]
    [ mkLink 1 1; mkLink 2 2; mkLink 2 1; mkLink 3 3; mkLink 4 1 ].

(** ** [GetTags] (lines 182-200) *)

(** The cursor over the one column of [SELECT name FROM tags]. *)
Inductive fetch_name : Type :=
| FetchedName (n : string)
| UndecodableName (e : string).

Record NameRows : Type := mkNameRows {
  names_pending : list fetch_name;
  names_Err : option string
}.

Definition deliver_names (fl : faults) (ns : list string) : NameRows :=
  let events :=
    map (fun ir : nat * string =>
           match scan_fails fl (fst ir) with
           | Some e => UndecodableName e
           | None => FetchedName (snd ir)
           end)
      (combine (seq 0 (length ns)) ns) in
  match lost_after fl with
  | Some (k, e) =>
      if (k <? length ns)%nat then mkNameRows (firstn k events) (Some e)
      else mkNameRows events None
  | None => mkNameRows events None
  end.

(** The engine on the statement of [GetTags]: the names of the tag table, in
    the order of the table. *)
Definition QueryNames (fl : faults) (db : storage) (text : string)
    (vs : list arg) : string + NameRows :=
  match query_fails fl with
  | Some e => inl e
  | None =>
      if text =? "SELECT name FROM tags" then
        match vs with
        | [] => inr (deliver_names fl (map t_name (tags db)))
        | _ => inl "sql: wrong number of arguments"
        end
      else inl "You have an error in your SQL syntax"
  end.

(** As in [GetQuestions], the loop ends when [Next] returns false and
    [rows.Err()] is not consulted. *)
Fixpoint scan_names (pending : list fetch_name) (tags : slice string)
    : result (slice string) :=
  match pending with
  | [] => Ok tags
  | FetchedName tag :: rest => scan_names rest (append_slice tags tag)
  | UndecodableName e :: _ => Err ("failed to parse tag: " ++ e)
  end.

Definition GetTags (fl : faults) (db : storage) : result (slice string) :=
  match QueryNames fl db "SELECT name FROM tags" [] with
  | inl e => Err ("failed to fetch tags: " ++ e)
  | inr rows => scan_names (names_pending rows) nil_slice
  end.

(** ** [NewDatabase] (lines 41-69) *)

(** The data source name, from the environment. *)
Definition data_source (getenv : string -> string) : string :=
  getenv "MYSQL_USER" ++ ":" ++ getenv "MYSQL_PASSWORD" ++ "@tcp(" ++
  getenv "MYSQL_HOST" ++ ":" ++ getenv "MYSQL_PORT" ++ ")/" ++
  getenv "MYSQL_DATABASE".

(** What the server answers to the attempts, by data source name and number
    of the attempt (from 0): the error of [sql.Open], and the error of
    [db.Ping] on a handle that was opened. *)
Record dialing : Type := mkDialing {
  open_fails : string -> nat -> option string;
  ping_fails : string -> nat -> option string
}.

(** The handle of a [Database]: the attempt it was opened at. *)
Record Database : Type := mkDatabase {
  opened_at : option nat
}.

(** What the loop leaves besides its result: the lines logged (number of the
    attempt as printed, from 1, and error), and the number of sleeps of
    five seconds. *)
Record waited : Type := mkWaited {
  logged : list (nat * string);
  slept : nat
}.

(** The loop [for i := 0; i < 10; i++], with [rounds] iterations left. *)
Fixpoint retry (d : dialing) (dsn : string) (i rounds : nat)
    (db : option nat) (err : option string) (w : waited)
    : option nat * option string * waited :=
  match rounds with
  | O => (db, err, w)
  | S rounds' =>
      let db := match open_fails d dsn i with
                | Some _ => None
                | None => Some i
                end in
      let err := match open_fails d dsn i with
                 | Some e => Some e
                 | None => ping_fails d dsn i
                 end in
      match err with
      | None => (db, err, w)
      | Some e =>
          retry d dsn (S i) rounds' db err
            (mkWaited (logged w ++ [(S i, e)]) (S (slept w)))
      end
  end.

Definition NewDatabase (d : dialing) (getenv : string -> string)
    : (string + Database) * waited :=
  let dsn := data_source getenv in
  match retry d dsn 0 10 None None (mkWaited [] 0) with
  | (db, Some e, w) =>
      (inl ("failed to connect to database after 10 attempts: " ++ e), w)
  | (db, None, w) => (inr (mkDatabase db), w)
  end.

(** ** Notions the properties are stated with *)

(** The names of the tags linked to question [id] in storage. *)
Definition linked_names (db : storage) (id : Z) : list string :=
  flat_map (names_of_link db) (links_of db id).

Fixpoint has_comma (s : string) : bool :=
  match s with
  | EmptyString => false
  | String c s' => (Ascii.eqb c "," || has_comma s')%bool
  end.

Definition same_elements {A} (l1 l2 : list A) : Prop :=
  forall x, In x l1 <-> In x l2.

(** The statement the engine reads from the text of [GetQuestions_query]. *)
Definition statement_of (language qType : string) (tags : list string)
    (config : option QueryConfig) : statement :=
  let n := length tags in
  mkStatement
    (if ((0 <? n)%nat && match_all config)%bool then Some n else None)
    ((if nonempty language then [PLanguage] else []) ++
     (if nonempty qType then [PType] else []) ++
     (if ((0 <? n)%nat && negb (match_all config))%bool then [PTagIn n] else []))%list.

(** The text of a statement of the family. *)
Definition render_predicate (p : predicate) : string :=
  match p with
  | PLanguage => "q.language = ?"
  | PType => "q.type = ?"
  | PTagIn n => "t.name IN (?" ++ strings.Repeat ",?" (n - 1) ++ ")"
  end.

Definition render_matching (m : option nat) : string :=
  match m with
  | None => ""
  | Some n => matching_head ++ strings.Repeat ",?" (n - 1) ++ matching_tail
  end.

Definition render_where (ps : list predicate) : string :=
  match ps with
  | [] => ""
  | _ => " WHERE " ++ strings.Join (map render_predicate ps) " AND "
  end.

Definition render_statement (st : statement) : string :=
  select_from ++ render_matching (st_matching st) ++
  render_where (st_where st) ++ " GROUP BY q.id".

(** An IN list has at least one placeholder. *)
Definition well_formed_predicate (p : predicate) : Prop :=
  match p with
  | PTagIn n => (0 < n)%nat
  | _ => True
  end.

Definition well_formed (st : statement) : Prop :=
  match st_matching st with
  | Some n => (0 < n)%nat
  | None => True
  end /\ Forall well_formed_predicate (st_where st).

(** The message each call's error is wrapped in. *)
Definition context_of (k : call) : string :=
  match k with
  | CBegin => "failed to begin transaction: "
  | CInsertQuestion => "failed to insert question: "
  | CQuestionId => "failed to get last insert ID: "
  | CSelectTag _ => "failed to query tag: "
  | CInsertTag _ => "failed to insert tag: "
  | CTagId => "failed to get tag ID: "
  | CInsertLink _ _ => "failed to insert question tag: "
  | CCommit => ""
  end.

(** A question passes the language and type filters, each applied only when
    requested. *)
Definition passes (E : engine) (language qType : string) (q : question_row) : bool :=
  ((negb (nonempty language) || same_name E (q_language q) language) &&
   (negb (nonempty qType) || same_name E (q_type q) qType))%bool.

(** The read with tag filtering disabled: the questions that pass the
    language and type filters, one row per question id with all the tag
    names joined to it, scanned like any result. *)
Definition read_without_tag_filter (E : engine) (fl : faults) (db : storage)
    (language qType : string) : result (slice Question) :=
  match query_fails fl with
  | Some e => Err ("failed to fetch questions: " ++ e)
  | None =>
      scan_rows
        (pending
           (deliver fl
              (group_by_id
                 (filter (fun r => passes E language qType (fst r)) (from_rows db)))))
        nil_slice
  end.

(** [&QueryConfig{MatchAllTags: true}] and [&QueryConfig{MatchAllTags: false}]. *)
Definition ALL : option QueryConfig := Some (mkQueryConfig true).
Definition ANY : option QueryConfig := Some (mkQueryConfig false).

(** The arguments, in the order the program appends them. *)
Definition arguments_of (language qType : string) (tags : list string)
    (config : option QueryConfig) : list arg :=
  ((if nonempty language then [AString language] else []) ++
   (if nonempty qType then [AString qType] else []) ++
   (if (0 <? length tags)%nat
    then map AString tags ++
         (if match_all config then [AInt (Z.of_nat (length tags))] else [])
    else []))%list.



Definition answered_ok (x : call * option string) : Prop := snd x = None.

(** From [c] to [c'] every call succeeded. *)
Definition quiet (c c' : connection) : Prop :=
  exists pre, journal c' = (journal c ++ pre)%list /\ Forall answered_ok pre.

(** From [c] to [c'] every call succeeded but the last, whose error is the
    one reported, in its context. *)
Definition failed_with (c c' : connection) (msg : string) : Prop :=
  exists pre k e,
    journal c' = (journal c ++ pre ++ [(k, Some e)])%list /\
    Forall answered_ok pre /\
    msg = context_of k ++ e.

(** The links of the tables and of the snapshot have no duplicate. *)
Definition links_unique (c : connection) : Prop :=
  NoDup (question_tags (store c)) /\
  forall s, snapshot c = Some s -> NoDup (question_tags s).

(** Inside a transaction begun at [s0], a step either goes on inside it or
    ends it with the tables of [s0] and its first error. *)
Definition goes_on (s0 : storage) (c c' : connection) : Prop :=
  snapshot c' = Some s0 /\ quiet c c' /\ (links_unique c -> links_unique c').

Definition gives_up (s0 : storage) (c c' : connection) (msg : string) : Prop :=
  store c' = s0 /\ failed_with c c' msg /\ (links_unique c -> links_unique c').

(** The ids of the questions of a successful result, in order. *)
Definition returned_ids (r : result (slice Question)) : option (list Z) :=
  match r with
  | Ok qs => Some (map ID (elems qs))
  | Err _ => None
  end.

Inductive role : Type := RLanguage | RType | RTagName | RTagCount.

(** What each placeholder of a statement stands for, in the order of the
    text. *)
Definition placeholders (st : statement) : list role :=
  (match st_matching st with
   | Some n => repeat RTagName n ++ [RTagCount]
   | None => []
   end ++
   flat_map (fun p => match p with
                      | PLanguage => [RLanguage]
                      | PType => [RType]
                      | PTagIn n => repeat RTagName n
                      end) (st_where st))%list.

(** ** Data for the instances *)

Definition question_1 : Question :=
  mkQuestion 1 "en" "truth" "Have you ever lied to your best friend?"
    (mk_slice ["18+"]).

Definition question_2 : Question :=
  mkQuestion 2 "en" "dare" "Take a shot of vodka." (mk_slice ["alcohol"; "18+"]).

Definition question_2_matched : Question :=
  mkQuestion 2 "en" "dare" "Take a shot of vodka." (mk_slice ["alcohol"]).

(** init.sql with one more question, which has no tag. *)
Definition with_untagged : storage :=
  mkStorage (questions init_sql ++ [mkQuestionRow 5 "en" "truth" "Never have I ever"])
    (tags init_sql) (question_tags init_sql).

Definition question_5 : Question :=
  mkQuestion 5 "en" "truth" "Never have I ever" (mk_slice []).

(** The seventh call, the first association insert, fails. *)
Definition fails_at_link : plan :=
  fun n => if (n =? 6)%nat then Some "Lock wait timeout exceeded" else None.

Definition new_question : Question :=
  mkQuestion 0 "en" "truth" "New one" (mk_slice ["newtag"; "18+"]).

Definition fresh_connection : connection :=
  connect init_sql (mkSequences 5 4).

Definition twice_tagged : Question :=
  mkQuestion 0 "en" "dare" "Again" (mk_slice ["alcohol"; "alcohol"]).

(** ** Further notions *)

(** The number of placeholders of a condition. *)
Definition needs (p : predicate) : nat :=
  match p with
  | PTagIn n => n
  | _ => 1
  end.

(** Tag rows were only added from [s] to [s'], each named as one of
    [names]. *)
Definition tags_added (names : list string) (s s' : storage) : Prop :=
  exists ts,
    tags s' = (tags s ++ ts)%list /\
    Forall (fun t => In (t_name t) names) ts.

(** From [s] to [s'] one link per name was added, each a new link from
    question [id] to the tag a lookup of the name finds in [s']. *)
Definition links_added (E : engine) (id : Z) (names : list string)
    (s s' : storage) : Prop :=
  exists ls,
    question_tags s' = (question_tags s ++ ls)%list /\
    length ls = length names /\
    NoDup ls /\
    (forall l, In l ls -> qt_question_id l = id /\ ~ In l (question_tags s)) /\
    forall tag, In tag names ->
      exists row, find_tag E s' tag = Some row /\ In (mkLink id (t_id row)) ls.

(** The keys of the tag table: PRIMARY KEY (id), UNIQUE (name). *)
Definition tag_keys_hold (E : engine) (s : storage) : Prop :=
  NoDup (map t_id (tags s)) /\
  NoDup (map (fun t => collation_key E (t_name t)) (tags s)).

(** The keys of init.sql: the primary keys of the three tables and the
    unique tag name. *)
Definition keys_hold (E : engine) (s : storage) : Prop :=
  NoDup (map q_id (questions s)) /\
  tag_keys_hold E s /\
  NoDup (question_tags s).

(** The error of an attempt to connect, if it fails: that of [sql.Open],
    else that of [db.Ping]. *)
Definition attempt_error (d : dialing) (dsn : string) (i : nat) : option string :=
  match open_fails d dsn i with
  | Some e => Some e
  | None => ping_fails d dsn i
  end.

(** The lines logged for the failed attempts [i], ..., [i + k - 1]. *)
Definition failure_lines (d : dialing) (dsn : string) (i k : nat)
    : list (nat * string) :=
  map (fun j => (S j, match attempt_error d dsn j with
                      | Some e => e
                      | None => ""
                      end))
    (seq i k).

(** Counters ahead of the ids: the next question id is not in use, also
    not by a link, and every tag id is below the next tag id. *)
Definition counters_ahead (c : connection) : Prop :=
  ~ In (next_question_id (counters c)) (map q_id (questions (store c))) /\
  (forall l, In l (question_tags (store c)) ->
     qt_question_id l <> next_question_id (counters c)) /\
  (forall t, In t (tags (store c)) -> (t_id t < next_tag_id (counters c))%Z).

(** Tag ids are distinct and below the next tag id. *)
Definition tag_ids_ahead (c : connection) : Prop :=
  NoDup (map t_id (tags (store c))) /\
  forall t, In t (tags (store c)) -> (t_id t < next_tag_id (counters c))%Z.

(** The links of question [id] go to tags whose names are none of [names]. *)
Definition links_apart (E : engine) (id : Z) (names : list string)
    (s : storage) : Prop :=
  forall l, In l (question_tags s) -> qt_question_id l = id ->
    exists row,
      In row (tags s) /\ t_id row = qt_tag_id l /\
      ~ In (collation_key E (t_name row)) (map (collation_key E) names).

(** The connection after [new_question] was added without failure. *)
Definition after_new_question : connection :=
  snd (AddQuestion binary_collation no_failures new_question fresh_connection).

Definition question_new : Question :=
  mkQuestion 5 "en" "truth" "New one" (mk_slice ["newtag"; "18+"]).

Definition question_new_matched : Question :=
  mkQuestion 5 "en" "truth" "New one" (mk_slice ["newtag"]).

Definition question_3 : Question :=
  mkQuestion 3 "de" "truth" "Hast du jemals Essen gestohlen?" (mk_slice ["food"]).

Definition question_4 : Question :=
  mkQuestion 4 "de" "dare" "Tanze für 1 Minute ohne Musik." (mk_slice ["18+"]).

(** The connection is lost after the first row. *)
Definition lost_after_one : faults :=
  mkFaults None (fun _ => None) (Some (1%nat, "invalid connection")).

Definition environment (name : string) : string :=
  if name =? "MYSQL_HOST" then "db" else "root".

(** The server answers the ping from the third attempt on. *)
Definition up_at_third : dialing :=
  mkDialing (fun _ _ => None)
    (fun _ i => if (i <? 2)%nat then Some "connection refused" else None).

(** The server never answers. *)
Definition never_up : dialing :=
  mkDialing (fun _ _ => None) (fun _ _ => Some "connection refused").

(** * Properties *)

Ltac split3 := split; [|split].

(** ** Strings *)

Lemma append_assoc (a b c : string) : (a ++ b) ++ c = a ++ (b ++ c).
Proof.
  induction a as [|x a IH]; simpl; [reflexivity | now rewrite IH].
Qed.


Lemma strip_prefix_app (p s : string) : strip_prefix p (p ++ s) = Some s.
Proof.
  induction p as [|x p IH]; simpl; [reflexivity |].
  now rewrite Ascii.eqb_refl.
Qed.

Lemma more_marks_Repeat (n : nat) (s : string) :
  more_marks s = (O, s) ->
  more_marks (strings.Repeat ",?" n ++ s) = (n, s).
Proof.
  intros Hs. induction n as [|n IH]; simpl; [exact Hs |].
  now rewrite IH.
Qed.

Lemma parse_language (r : string) :
  parse_predicate ("q.language = ?" ++ r) = Some (PLanguage, r).
Proof.
  unfold parse_predicate. now rewrite strip_prefix_app.
Qed.

Lemma parse_type (r : string) :
  parse_predicate ("q.type = ?" ++ r) = Some (PType, r).
Proof. reflexivity. Qed.

Lemma parse_tag_in (n : nat) (r : string) :
  parse_predicate (("t.name IN (?" ++ strings.Repeat ",?" n ++ ")") ++ r)
  = Some (PTagIn (S n), r).
Proof.
  rewrite !append_assoc.
  unfold parse_predicate.
  change (strip_prefix "q.language = ?" ("t.name IN (?" ++ _)) with (@None string).
  change (strip_prefix "q.type = ?" ("t.name IN (?" ++ _)) with (@None string).
  rewrite strip_prefix_app, more_marks_Repeat by reflexivity.
  reflexivity.
Qed.

Lemma length_append (a b : string) :
  String.length (a ++ b) = (String.length a + String.length b)%nat.
Proof.
  induction a as [|x a IH]; simpl; [reflexivity | now rewrite IH].
Qed.

Lemma parse_render_predicate (p : predicate) (r : string) :
  well_formed_predicate p ->
  parse_predicate (render_predicate p ++ r) = Some (p, r).
Proof.
  destruct p as [| |n]; simpl render_predicate; intros Hp.
  - apply parse_language.
  - apply parse_type.
  - destruct n as [|n]; [inversion Hp |].
    replace (S n - 1)%nat with n by lia. apply parse_tag_in.
Qed.

Lemma render_predicate_nonempty (p : predicate) :
  (1 <= String.length (render_predicate p))%nat.
Proof. destruct p; simpl; lia. Qed.

Lemma Join_render_length (ps : list predicate) (tail : string) :
  (length ps <= String.length
     (strings.Join (map render_predicate ps) " AND " ++ tail))%nat.
Proof.
  induction ps as [|p ps IH]; [simpl; lia |].
  destruct ps as [|p' ps].
  - simpl strings.Join. rewrite length_append.
    pose proof (render_predicate_nonempty p). simpl length. lia.
  - change (strings.Join (map render_predicate (p :: p' :: ps)) " AND ")
      with (render_predicate p ++ " AND " ++
              strings.Join (map render_predicate (p' :: ps)) " AND ").
    rewrite !append_assoc, length_append.
    pose proof (render_predicate_nonempty p).
    rewrite length_append. simpl length in *. lia.
Qed.

Lemma parse_render_conjunction (ps : list predicate) :
  forall (fuel : nat) (tail : string),
    ps <> [] ->
    Forall well_formed_predicate ps ->
    (length ps <= fuel)%nat ->
    strip_prefix " AND " tail = None ->
    parse_conjunction fuel
      (strings.Join (map render_predicate ps) " AND " ++ tail)
    = Some (ps, tail).
Proof.
  induction ps as [|p ps IH]; intros fuel tail Hne Hwf Hfuel Htail;
    [congruence |].
  inversion Hwf as [|? ? Hp Hps]; subst.
  destruct fuel as [|fuel]; [simpl in Hfuel; lia |].
  destruct ps as [|p' ps].
  - cbn [parse_conjunction strings.Join map].
    rewrite parse_render_predicate by assumption.
    now rewrite Htail.
  - change (strings.Join (map render_predicate (p :: p' :: ps)) " AND ")
      with (render_predicate p ++ " AND " ++
              strings.Join (map render_predicate (p' :: ps)) " AND ").
    rewrite !append_assoc.
    cbn [parse_conjunction].
    rewrite parse_render_predicate by assumption.
    rewrite strip_prefix_app.
    rewrite IH; [reflexivity | discriminate | assumption | | assumption].
    simpl in Hfuel |- *. lia.
Qed.

Lemma parse_render_where (ps : list predicate) :
  Forall well_formed_predicate ps ->
  parse_where (render_where ps ++ " GROUP BY q.id")
  = Some (ps, " GROUP BY q.id").
Proof.
  intros Hwf. destruct ps as [|p ps]; [reflexivity |].
  unfold render_where, parse_where.
  rewrite append_assoc, strip_prefix_app.
  apply parse_render_conjunction;
    [discriminate | assumption | apply Join_render_length | reflexivity].
Qed.

Lemma render_where_space (ps : list predicate) :
  exists s, render_where ps ++ " GROUP BY q.id" = String " " s.
Proof.
  destruct ps; simpl; eauto.
Qed.

Lemma parse_render_matching (m : option nat) (ps : list predicate) :
  match m with Some n => (0 < n)%nat | None => True end ->
  parse_matching (render_matching m ++ render_where ps ++ " GROUP BY q.id")
  = Some (m, render_where ps ++ " GROUP BY q.id").
Proof.
  intros Hm. destruct m as [n|].
  - destruct n as [|n]; [inversion Hm |].
    unfold render_matching, parse_matching.
    replace (S n - 1)%nat with n by lia.
    rewrite !append_assoc, strip_prefix_app.
    rewrite more_marks_Repeat by reflexivity.
    now rewrite strip_prefix_app.
  - destruct (render_where_space ps) as [s Hs].
    simpl render_matching. simpl append at 1. rewrite Hs. reflexivity.
Qed.

(** The engine reads back the statement a text of the family was written
    from. *)
Lemma parse_render_statement (st : statement) :
  well_formed st -> parse_statement (render_statement st) = Some st.
Proof.
  intros [Hm Hps]. destruct st as [m ps]; simpl in *.
  unfold parse_statement, render_statement; simpl st_matching; simpl st_where.
  rewrite strip_prefix_app, parse_render_matching by assumption.
  now rewrite parse_render_where.
Qed.

(** ** The query of [GetQuestions] *)

Lemma statement_of_well_formed language qType tags config :
  well_formed (statement_of language qType tags config).
Proof.
  unfold statement_of, well_formed; simpl.
  destruct tags as [|t tags], (match_all config),
    (nonempty language), (nonempty qType); simpl;
    (split; [first [exact I | lia] |]);
    repeat (apply Forall_cons; [simpl; first [exact I | lia] |]);
    apply Forall_nil.
Qed.

(** The text [GetQuestions] sends is the text of [statement_of]. *)
Lemma GetQuestions_query_text language qType tags config :
  fst (GetQuestions_query language qType tags config)
  = render_statement (statement_of language qType tags config).
Proof.
  unfold GetQuestions_query, statement_of, render_statement,
    add_group_by, add_where, add_tags, add_type, add_language.
  destruct (nonempty language), (nonempty qType), tags as [|t tags],
    (match_all config);
    cbn -[select_from matching_head matching_tail strings.Repeat append];
    rewrite ?append_assoc; reflexivity.
Qed.

Lemma GetQuestions_query_args language qType tags config :
  snd (GetQuestions_query language qType tags config)
  = arguments_of language qType tags config.
Proof.
  unfold GetQuestions_query, arguments_of,
    add_group_by, add_where, add_tags, add_type, add_language.
  destruct (nonempty language), (nonempty qType), tags as [|t tags],
    (match_all config); simpl; rewrite ?app_nil_r; reflexivity.
Qed.

(** X2. The text depends on the inputs only through which filters are
    present, the number of tags and the mode: no value of the caller reaches
    it. *)
Lemma GetQuestions_query_template l1 t1 tags1 c1 l2 t2 tags2 c2 :
  nonempty l1 = nonempty l2 ->
  nonempty t1 = nonempty t2 ->
  length tags1 = length tags2 ->
  match_all c1 = match_all c2 ->
  fst (GetQuestions_query l1 t1 tags1 c1) = fst (GetQuestions_query l2 t2 tags2 c2).
Proof.
  intros Hl Ht Hn Hm. rewrite !GetQuestions_query_text.
  unfold statement_of. now rewrite Hl, Ht, Hn, Hm.
Qed.

(** ** Binding *)

Lemma take_app (xs ys : list arg) : take (length xs) (xs ++ ys) = Some (xs, ys).
Proof.
  unfold take. rewrite length_app.
  replace (length xs <=? length xs + length ys)%nat with true
    by (symmetry; apply Nat.leb_le; lia).
  rewrite firstn_app, Nat.sub_diag, firstn_all, skipn_app, Nat.sub_diag,
    skipn_all; simpl.
  now rewrite app_nil_r.
Qed.



(** ** Rows *)

Lemma in_firstn {A} (n : nat) (l : list A) (x : A) :
  In x (firstn n l) -> In x l.
Proof.
  revert l; induction n as [|n IH]; intros [|y l]; simpl; intuition.
Qed.

Lemma deliver_fetched (fl : faults) (rs : list sql_row) (r : sql_row) :
  In (Fetched r) (pending (deliver fl rs)) -> In r rs.
Proof.
  assert (Hev : forall evs,
    evs = map (fun ir : nat * sql_row =>
                 match scan_fails fl (fst ir) with
                 | Some e => Undecodable e
                 | None => Fetched (snd ir)
                 end) (combine (seq 0 (length rs)) rs) ->
    In (Fetched r) evs -> In r rs).
  { intros evs -> Hin. apply in_map_iff in Hin as [[i r'] [Heq Hin]].
    simpl in Heq. destruct (scan_fails fl i); [discriminate |].
    injection Heq as ->. eapply in_combine_r; eassumption. }
  unfold deliver.
  destruct (lost_after fl) as [[k e]|];
    [destruct (k <? length rs)%nat |]; simpl; intros Hin.
  - eapply Hev; [reflexivity | eapply in_firstn; eassumption].
  - eapply Hev; [reflexivity | assumption].
  - eapply Hev; [reflexivity | assumption].
Qed.

Lemma scan_rows_elems (pend : list fetch) :
  forall acc qs,
    scan_rows pend acc = Ok qs ->
    forall q, In q (elems qs) ->
      In q (elems acc) \/ exists r, In (Fetched r) pend /\ q = scan r.
Proof.
  induction pend as [|[r|e] pend IH]; intros acc qs H q Hq; simpl in H.
  - injection H as <-. now left.
  - destruct (IH _ _ H q Hq) as [Hacc | [r' [Hin ->]]].
    + simpl in Hacc. apply in_app_iff in Hacc as [Hacc | [<- | []]].
      * now left.
      * right. exists r. split; [now left | reflexivity].
    + right. exists r'. split; [now right | reflexivity].
  - discriminate.
Qed.

(** A successful [GetQuestions] ran a bound statement of the built text, and
    every question it returns is the scan of a row of the evaluation. *)
Lemma GetQuestions_Ok E fl db language qType tags config qs :
  GetQuestions E fl db language qType tags config = Ok qs ->
  exists b,
    bind (statement_of language qType tags config)
         (arguments_of language qType tags config) = Some b /\
    forall q, In q (elems qs) ->
      exists r, In r (evaluate E db b) /\ q = scan r.
Proof.
  unfold GetQuestions.
  pose proof (GetQuestions_query_text language qType tags config) as Ht.
  pose proof (GetQuestions_query_args language qType tags config) as Ha.
  destruct (GetQuestions_query language qType tags config) as [text vs].
  simpl in Ht, Ha. subst text vs.
  unfold Query.
  destruct (query_fails fl); [discriminate |].
  rewrite parse_render_statement by apply statement_of_well_formed.
  destruct (bind _ _) as [b|]; [|discriminate].
  intros H. exists b. split; [reflexivity |].
  intros q Hq.
  destruct (scan_rows_elems _ _ _ H q Hq) as [[] | [r [Hin ->]]].
  exists r. split; [eapply deliver_fetched; eassumption | reflexivity].
Qed.

Lemma scan_rows_fetched (rs : list sql_row) :
  forall acc,
    scan_rows (map Fetched rs) acc = Ok (fold_left append_slice (map scan rs) acc).
Proof.
  induction rs as [|r rs IH]; intros acc; simpl; [reflexivity | apply IH].
Qed.

Lemma deliver_no_faults (rs : list sql_row) :
  pending (deliver no_faults rs) = map Fetched rs.
Proof.
  unfold deliver; simpl. generalize 0%nat.
  induction rs as [|r rs IH]; intros n; simpl; [reflexivity | now rewrite IH].
Qed.

Lemma fold_append_elems {A} (xs : list A) :
  forall acc, elems (fold_left append_slice xs acc) = (elems acc ++ xs)%list.
Proof.
  induction xs as [|x xs IH]; intros acc; simpl.
  - now rewrite app_nil_r.
  - rewrite IH. simpl. now rewrite <- app_assoc.
Qed.

(** Without faults [GetQuestions] returns the scans of the rows of the
    evaluation, all of them and in their order. *)
Lemma GetQuestions_no_faults E db language qType tags config b :
  bind (statement_of language qType tags config)
       (arguments_of language qType tags config) = Some b ->
  exists qs,
    GetQuestions E no_faults db language qType tags config = Ok qs /\
    elems qs = map scan (evaluate E db b).
Proof.
  intros Hb. unfold GetQuestions.
  pose proof (GetQuestions_query_text language qType tags config) as Ht.
  pose proof (GetQuestions_query_args language qType tags config) as Ha.
  destruct (GetQuestions_query language qType tags config) as [text vs].
  simpl in Ht, Ha. subst text vs.
  unfold Query. cbn [query_fails no_faults].
  rewrite parse_render_statement by apply statement_of_well_formed.
  rewrite Hb, deliver_no_faults, scan_rows_fetched.
  eexists. split; [reflexivity |]. now rewrite fold_append_elems.
Qed.

Lemma scan_rows_complete (fl : faults) (rs : list sql_row) :
  forall k acc qs,
    scan_rows
      (map (fun ir : nat * sql_row =>
              match scan_fails fl (fst ir) with
              | Some e => Undecodable e
              | None => Fetched (snd ir)
              end)
         (combine (seq k (length rs)) rs)) acc = Ok qs ->
    elems qs = (elems acc ++ map scan rs)%list.
Proof.
  induction rs as [|r rs IH]; intros k acc qs; simpl.
  - intros H. injection H as <-. now rewrite app_nil_r.
  - destruct (scan_fails fl k); [discriminate |].
    intros H. rewrite (IH _ _ _ H). simpl. now rewrite <- app_assoc.
Qed.

(** When the connection is not lost on the way, a successful [GetQuestions]
    returns the scans of all the rows of the evaluation. *)
Lemma GetQuestions_complete E fl db language qType tags config qs :
  lost_after fl = None ->
  GetQuestions E fl db language qType tags config = Ok qs ->
  exists b,
    bind (statement_of language qType tags config)
         (arguments_of language qType tags config) = Some b /\
    elems qs = map scan (evaluate E db b).
Proof.
  intros Hlost. unfold GetQuestions.
  pose proof (GetQuestions_query_text language qType tags config) as Ht.
  pose proof (GetQuestions_query_args language qType tags config) as Ha.
  destruct (GetQuestions_query language qType tags config) as [text vs].
  simpl in Ht, Ha. subst text vs.
  unfold Query.
  destruct (query_fails fl); [discriminate |].
  rewrite parse_render_statement by apply statement_of_well_formed.
  destruct (bind _ _) as [b|]; [|discriminate].
  unfold deliver. rewrite Hlost. cbn [pending].
  intros H. exists b. split; [reflexivity |].
  now apply scan_rows_complete in H.
Qed.

(** ** The joins *)

Lemma in_outer {A} (xs : list A) (x : A) :
  In (Some x) (outer xs) <-> In x xs.
Proof.
  destruct xs as [|y ys]; simpl.
  - split; [intros [H | []]; discriminate | intros []].
  - split.
    + intros [H | H]; [injection H as ->; now left |].
      apply in_map_iff in H as [z [Hz Hin]]. injection Hz as ->. now right.
    + intros [-> | H]; [now left | right; now apply in_map].
Qed.

(** A row of the left joins carries a name exactly when the name is linked
    to its question. *)
Lemma in_join_question (db : storage) (q q' : question_row) (n : string) :
  In (q', Some n) (join_question db q) <->
  q' = q /\ In n (linked_names db (q_id q)).
Proof.
  unfold join_question, linked_names. rewrite !in_flat_map. split.
  - intros [[l|] [Hl Hin]]; apply in_map_iff in Hin as [o [Heq Ho]];
      injection Heq as <- ->.
    + split; [reflexivity |]. exists l.
      split; [now apply in_outer | now apply in_outer].
    + destruct Ho as [Ho | []]; discriminate.
  - intros [-> [l [Hl Hin]]]. exists (Some l).
    split; [now apply in_outer |].
    apply in_map. now apply in_outer.
Qed.

Lemma join_question_fst (db : storage) (q : question_row) (r : joined) :
  In r (join_question db q) -> fst r = q.
Proof.
  unfold join_question. rewrite in_flat_map.
  intros [l [_ Hin]]. apply in_map_iff in Hin as [o [<- _]]. reflexivity.
Qed.

Lemma in_from_rows_name (db : storage) (q : question_row) (n : string) :
  In (q, Some n) (from_rows db) <->
  In q (questions db) /\ In n (linked_names db (q_id q)).
Proof.
  unfold from_rows. rewrite in_flat_map. split.
  - intros [q0 [Hq Hin]]. apply in_join_question in Hin as [-> Hn]. tauto.
  - intros [Hq Hn]. exists q. split; [assumption |].
    apply in_join_question. tauto.
Qed.

Lemma in_from_rows_question (db : storage) (r : joined) :
  In r (from_rows db) -> In (fst r) (questions db).
Proof.
  unfold from_rows. rewrite in_flat_map.
  intros [q [Hq Hin]]. now rewrite (join_question_fst _ _ _ Hin).
Qed.

(** ** Groups *)

Section Groups.

Variable E : engine.

Lemma in_inner_join (rows : list joined) (ids : list Z) (r : joined) :
  In r (inner_join rows ids) <-> In r rows /\ In (q_id (fst r)) ids.
Proof.
  unfold inner_join. rewrite in_flat_map. split.
  - intros [r0 [Hr0 Hin]]. apply in_map_iff in Hin as [id [<- Hid]].
    apply filter_In in Hid as [Hid Heq]. apply Z.eqb_eq in Heq.
    rewrite Heq. tauto.
  - intros [Hr Hid]. exists r. split; [assumption |].
    apply in_map_iff. exists (q_id (fst r)). split; [reflexivity |].
    apply filter_In. split; [assumption | apply Z.eqb_refl].
Qed.

Lemma evaluate_selected (db : storage) (b : bound_statement) :
  evaluate E db b = group_by_id (selected E db b).
Proof. reflexivity. Qed.

Lemma in_selected (db : storage) (b : bound_statement) (r : joined) :
  In r (selected E db b) <->
  In r (from_rows db) /\
  match bs_matching b with
  | None => True
  | Some (names, v) => In (q_id (fst r)) (matching_tags E db names v)
  end /\
  forallb (holds E r) (bs_where b) = true.
Proof.
  unfold selected. rewrite filter_In.
  destruct (bs_matching b) as [[names v]|].
  - rewrite in_inner_join. tauto.
  - tauto.
Qed.

(** A row of the result is the group of its id: the group is not empty,
    its rows have that id, and the tag column concatenates their names. *)
Lemma in_group_by_id (rows : list joined) (r : sql_row) :
  In r (group_by_id rows) ->
  exists q n rest,
    filter (fun x => (q_id (fst x) =? c_id r)%Z) rows = (q, n) :: rest /\
    r = mkRow (q_id q) (q_language q) (q_type q) (q_task q)
          (group_concat (n :: map snd rest)).
Proof.
  unfold group_by_id. rewrite in_flat_map.
  intros [id [_ Hin]]. unfold select_group in Hin.
  destruct (filter (fun x : joined => (q_id (fst x) =? id)%Z) rows)
    as [|[q n] rest] eqn:Hg; [destruct Hin |].
  destruct Hin as [<- | []].
  assert (Hid : q_id q = id).
  { assert (Hq : In (q, n) (filter (fun x : joined => (q_id (fst x) =? id)%Z) rows))
      by (rewrite Hg; now left).
    apply filter_In in Hq as [_ Hq]. now apply Z.eqb_eq in Hq. }
  exists q, n, rest. simpl. rewrite Hid. split; [assumption | reflexivity].
Qed.

Lemma in_non_null {A} (xs : list (option A)) (x : A) :
  In x (non_null xs) <-> In (Some x) xs.
Proof.
  unfold non_null. rewrite in_flat_map. split.
  - intros [[y|] [Hy Hin]]; [destruct Hin as [-> | []]; assumption | destruct Hin].
  - intros H. exists (Some x). split; [assumption | now left].
Qed.

(** The names concatenated for a returned row are names of rows selected
    for its id. *)
Lemma evaluate_row (db : storage) (b : bound_statement) (r : sql_row) :
  In r (evaluate E db b) ->
  exists q names,
    In q (questions db) /\ q_id q = c_id r /\
    c_tags r = group_concat names /\
    names <> [] /\
    (forall o, In o names <->
       exists q', q_id q' = c_id r /\ In (q', o) (selected E db b)) /\
    (exists o, In (q, o) (selected E db b)).
Proof.
  rewrite evaluate_selected. intros Hr.
  destruct (in_group_by_id _ _ Hr) as [q [n [rest [Hg ->]]]].
  simpl in Hg |- *.
  assert (Hgroup : forall x,
    In x ((q, n) :: rest) <-> In x (selected E db b) /\ q_id (fst x) = q_id q).
  { intros x. rewrite <- Hg, filter_In, Z.eqb_eq. tauto. }
  assert (Hq : In (q, n) (selected E db b)) by (apply Hgroup; now left).
  exists q, (n :: map snd rest). repeat split.
  - apply in_selected in Hq as [Hq _].
    now apply in_from_rows_question in Hq.
  - discriminate.
  - intros Ho.
    assert (Hx : exists x, In x ((q, n) :: rest) /\ snd x = o).
    { destruct Ho as [<- | Ho]; [exists (q, n); split; [now left | reflexivity] |].
      apply in_map_iff in Ho as [x [<- Hx]].
      exists x. split; [now right | reflexivity]. }
    destruct Hx as [[q' o'] [Hx Heq]]. simpl in Heq. subst o'.
    apply Hgroup in Hx as [Hsel Hid]. exists q'. tauto.
  - intros [q' [Hid Hsel]].
    assert (Hx : In (q', o) ((q, n) :: rest)) by (apply Hgroup; tauto).
    destruct Hx as [Hx | Hx]; [injection Hx as _ <-; now left |].
    right. apply in_map_iff. exists (q', o). tauto.
  - exists n. assumption.
Qed.

End Groups.

(** ** What [GetQuestions] returns *)

Lemma evaluate_row_names E db b r :
  In r (evaluate E db b) ->
  exists names,
    c_tags r = group_concat names /\
    forall n, In (Some n) names -> In n (linked_names db (c_id r)).
Proof.
  intros Hr.
  destruct (evaluate_row E db b r Hr) as [q [names [_ [_ [Ht [_ [Hn _]]]]]]].
  exists names. split; [assumption |].
  intros n Hin. apply Hn in Hin as [q' [Hid Hsel]].
  apply in_selected in Hsel as [Hfrom _].
  apply in_from_rows_name in Hfrom as [_ Hl]. now rewrite <- Hid.
Qed.

Lemma take_names (tags : list string) (rest : list arg) :
  take (length tags) (map AString tags ++ rest) = Some (map AString tags, rest).
Proof.
  rewrite <- (length_map AString tags). apply take_app.
Qed.

(** In ANY mode every placeholder receives the argument meant for it. *)
Lemma bind_any language qType tags config :
  tags <> [] ->
  match_all config = false ->
  bind (statement_of language qType tags config)
       (arguments_of language qType tags config)
  = Some (mkBound None
            ((if nonempty language then [BLanguage (AString language)] else []) ++
             (if nonempty qType then [BType (AString qType)] else []) ++
             [BTagIn (map AString tags)])%list).
Proof.
  intros Hne Hany. unfold statement_of, arguments_of. rewrite Hany.
  destruct tags as [|t tags]; [congruence |].
  change (0 <? length (t :: tags))%nat with true.
  cbn [andb negb]. unfold bind. cbn [st_matching bind_matching st_where].
  destruct (nonempty language), (nonempty qType);
    cbn [app bind_where]; rewrite take_names; reflexivity.
Qed.

(** C4. With a non-empty tag list in ANY mode, every question [GetQuestions]
    returns is linked in storage to a tag whose name the engine finds in the
    requested list (the joined tag name passes the IN test); so no question
    linked to none of the requested tags is returned. *)
Theorem GetQuestions_any_tag_linked
    E fl db language qType tags config qs q :
  tags <> [] ->
  match_all config = false ->
  GetQuestions E fl db language qType tags config = Ok qs ->
  In q (elems qs) ->
  exists tag name,
    In tag tags /\ In name (linked_names db (ID q)) /\
    same_name E name tag = true.
Proof.
  intros Hne Hany Hok Hq.
  destruct (GetQuestions_Ok _ _ _ _ _ _ _ _ Hok) as [b [Hb Hrows]].
  rewrite bind_any in Hb by assumption. injection Hb as <-.
  destruct (Hrows q Hq) as [r [Hr ->]].
  destruct (evaluate_row E db _ r Hr) as [x [names [_ [Hid [_ [_ [_ [o Hsel]]]]]]]].
  apply in_selected in Hsel as [Hfrom [_ Hwhere]].
  rewrite forallb_forall in Hwhere.
  assert (Hin : holds E (x, o) (BTagIn (map AString tags)) = true).
  { apply Hwhere. cbn [bs_where]. rewrite !in_app_iff. right; right. now left. }
  simpl in Hin. destruct o as [name|]; [|discriminate].
  unfold name_in in Hin. apply existsb_exists in Hin as [v [Hv Heq]].
  apply in_map_iff in Hv as [tag [<- Htag]].
  exists tag, name. repeat split; try assumption.
  apply in_from_rows_name in Hfrom as [_ Hl].
  simpl. now rewrite <- Hid.
Qed.

(** C9. A returned question without linked tags has an allocated, empty tag
    list: the tag column of its row is NULL, and only a non-NULL column is
    split. *)
Theorem GetQuestions_no_tags_empty_list
    E fl db language qType tags config qs q :
  GetQuestions E fl db language qType tags config = Ok qs ->
  In q (elems qs) ->
  linked_names db (ID q) = [] ->
  Tags q = mk_slice [].
Proof.
  intros Hok Hq Hnone.
  destruct (GetQuestions_Ok _ _ _ _ _ _ _ _ Hok) as [b [_ Hrows]].
  destruct (Hrows q Hq) as [r [Hr ->]].
  destruct (evaluate_row_names _ _ _ _ Hr) as [names [Ht Hn]].
  simpl in Hnone. unfold scan; simpl. rewrite Ht. unfold group_concat.
  destruct (non_null names) as [|n ns] eqn:Hnn; [reflexivity |].
  exfalso. assert (Hin : In n (non_null names)) by (rewrite Hnn; now left).
  apply in_non_null in Hin. apply Hn in Hin. now rewrite Hnone in Hin.
Qed.

(** C6. With an empty tag list [GetQuestions] is the read with tag filtering
    disabled, whatever the match mode. *)
Theorem GetQuestions_no_tags_unfiltered E fl db language qType config :
  GetQuestions E fl db language qType [] config
  = read_without_tag_filter E fl db language qType.
Proof.
  unfold GetQuestions, read_without_tag_filter.
  pose proof (GetQuestions_query_text language qType [] config) as Ht.
  pose proof (GetQuestions_query_args language qType [] config) as Ha.
  destruct (GetQuestions_query language qType [] config) as [text vs].
  simpl in Ht, Ha. subst text vs.
  unfold Query. destruct (query_fails fl); [reflexivity |].
  rewrite parse_render_statement by apply statement_of_well_formed.
  unfold statement_of, arguments_of, passes, bind. cbn [length Nat.ltb Nat.leb andb].
  cbn [st_matching st_where bind_matching].
  destruct (nonempty language), (nonempty qType);
    cbn [app bind_where negb orb]; unfold evaluate, selected;
    cbn [bs_matching bs_where];
    do 3 f_equal; f_equal; apply filter_ext; intros [x o];
    cbn [forallb holds text_eq fst]; rewrite ?andb_true_r; reflexivity.
Qed.

(** ** ALL mode without a language or type filter *)

Section AllMode.

Variable E : engine.

Lemma in_link_names (db : storage) (id : Z) (n : string) :
  In (id, n) (link_names db) <-> In n (linked_names db id).
Proof.
  unfold link_names, linked_names, links_of. rewrite !in_flat_map. split.
  - intros [l [Hl Hin]]. apply in_map_iff in Hin as [n' [Heq Hn']].
    injection Heq as <- <-. exists l. split; [|assumption].
    apply filter_In. split; [assumption | apply Z.eqb_refl].
  - intros [l [Hl Hin]]. apply filter_In in Hl as [Hl Hid].
    apply Z.eqb_eq in Hid. exists l. split; [assumption |].
    apply in_map_iff. exists n. split; [now rewrite Hid | assumption].
Qed.

Lemma name_in_tags (n : string) (tags : list string) :
  name_in E n (map AString tags) = true <->
  exists tag, In tag tags /\ same_name E n tag = true.
Proof.
  unfold name_in. rewrite existsb_exists. split.
  - intros [v [Hv Heq]]. apply in_map_iff in Hv as [tag [<- Htag]]. eauto.
  - intros [tag [Htag Heq]]. exists (AString tag). split; [now apply in_map | exact Heq].
Qed.

(** The names the subquery groups under [id]: the linked names found in the
    requested list. *)
Lemma in_matched_names (db : storage) (tags : list string) (id : Z) (n : string) :
  In n (map snd
          (filter (fun r : Z * string => (fst r =? id)%Z)
             (filter (fun r => name_in E (snd r) (map AString tags)) (link_names db))))
  <-> In n (linked_names db id) /\
      exists tag, In tag tags /\ same_name E n tag = true.
Proof.
  rewrite in_map_iff. split.
  - intros [[id' n'] [Heq Hin]]. simpl in Heq. subst n'.
    apply filter_In in Hin as [Hin Hid]. apply filter_In in Hin as [Hin Hname].
    simpl in Hid, Hname. apply Z.eqb_eq in Hid. subst id'.
    split; [now apply in_link_names | now apply name_in_tags].
  - intros [Hl Htag]. exists (id, n). split; [reflexivity |].
    apply filter_In. split; [|apply Z.eqb_refl].
    apply filter_In. split; [now apply in_link_names | now apply name_in_tags].
Qed.

Lemma same_name_key (a b : string) :
  same_name E a b = true <-> collation_key E a = collation_key E b.
Proof. unfold same_name. apply String.eqb_eq. Qed.

(** The count of distinct matched names reaches the number of requested tags
    exactly when every requested tag is matched, provided the requested tags
    are distinct names. *)
Lemma count_distinct_complete (tags names : list string) :
  NoDup (map (collation_key E) tags) ->
  (forall n, In n names -> exists tag, In tag tags /\ same_name E n tag = true) ->
  (count_distinct E names = length tags <->
   forall tag, In tag tags -> exists n, In n names /\ same_name E n tag = true).
Proof.
  intros Htags Hnames. unfold count_distinct.
  set (K := nodup string_dec (map (collation_key E) names)).
  set (TK := map (collation_key E) tags).
  assert (HK : NoDup K) by apply NoDup_nodup.
  assert (Hincl : incl K TK).
  { intros k Hk. apply nodup_In in Hk. apply in_map_iff in Hk as [n [<- Hn]].
    destruct (Hnames n Hn) as [tag [Htag Heq]].
    apply in_map_iff. exists tag. split; [|assumption].
    symmetry. now apply same_name_key. }
  assert (Hcover : incl TK K <->
    forall tag, In tag tags -> exists n, In n names /\ same_name E n tag = true).
  { split.
    - intros Hinc tag Htag.
      assert (Hk : In (collation_key E tag) K)
        by (apply Hinc; now apply in_map).
      apply nodup_In in Hk. apply in_map_iff in Hk as [n [Heq Hn]].
      exists n. split; [assumption | now apply same_name_key].
    - intros Hall k Hk. apply in_map_iff in Hk as [tag [<- Htag]].
      destruct (Hall tag Htag) as [n [Hn Heq]].
      apply nodup_In. apply in_map_iff. exists n.
      split; [now apply same_name_key | assumption]. }
  rewrite <- Hcover. rewrite <- (length_map (collation_key E) tags).
  fold TK. split.
  - intros Hlen. apply NoDup_length_incl; [assumption | lia | assumption].
  - intros Hinc. apply Nat.le_antisymm; now apply NoDup_incl_length.
Qed.

Lemma in_matching_tags (db : storage) (tags : list string) (id : Z) :
  tags <> [] ->
  NoDup (map (collation_key E) tags) ->
  In id (matching_tags E db (map AString tags) (AInt (Z.of_nat (length tags))))
  <-> forall tag, In tag tags ->
        exists n, In n (linked_names db id) /\ same_name E n tag = true.
Proof.
  intros Hne Htags. unfold matching_tags. rewrite filter_In, nodup_In.
  cbn [count_eq]. rewrite Z.eqb_eq, Nat2Z.inj_iff.
  rewrite count_distinct_complete;
    [|assumption | intros n Hn; now apply in_matched_names in Hn].
  split.
  - intros [_ Hall] tag Htag. destruct (Hall tag Htag) as [n [Hn Heq]].
    apply in_matched_names in Hn. exists n. tauto.
  - intros Hall.
    assert (Hall' : forall tag, In tag tags ->
      exists n,
        In n (map snd
                (filter (fun r : Z * string => (fst r =? id)%Z)
                   (filter (fun r => name_in E (snd r) (map AString tags))
                      (link_names db)))) /\
        same_name E n tag = true).
    { intros tag Htag. destruct (Hall tag Htag) as [n [Hn Heq]].
      exists n. split; [|assumption]. apply in_matched_names. eauto. }
    split; [|exact Hall'].
    destruct tags as [|tag tags']; [congruence |].
    destruct (Hall' tag (or_introl eq_refl)) as [n [Hn _]].
    apply in_map_iff in Hn as [[id' n'] [_ Hin]].
    apply filter_In in Hin as [Hin Hid]. simpl in Hid.
    apply Z.eqb_eq in Hid. subst id'.
    apply in_map_iff. exists (id, n'). split; [reflexivity | assumption].
Qed.

Lemma join_question_not_nil (db : storage) (q : question_row) :
  exists o, In (q, o) (join_question db q).
Proof.
  unfold join_question.
  destruct (links_of db (q_id q)) as [|l ls].
  - exists None. simpl. now left.
  - destruct (names_of_link db l) as [|n ns] eqn:Hn.
    + exists None. apply in_flat_map. exists (Some l).
      split; [now left | rewrite Hn; now left].
    + exists (Some n). apply in_flat_map. exists (Some l).
      split; [now left | rewrite Hn; now left].
Qed.

Lemma group_by_id_ids (rows : list joined) (id : Z) :
  In id (map c_id (group_by_id rows)) <->
  exists r, In r rows /\ q_id (fst r) = id.
Proof.
  rewrite in_map_iff. split.
  - intros [r [<- Hr]].
    destruct (in_group_by_id rows r Hr) as [q [n [rest [Hg ->]]]].
    simpl in Hg |- *. exists (q, n).
    assert (Hin : In (q, n) (filter (fun x : joined => (q_id (fst x) =? q_id q)%Z) rows))
      by (rewrite Hg; now left).
    apply filter_In in Hin. tauto.
  - intros [r [Hr Hid]].
    assert (Hg : In r (filter (fun x : joined => (q_id (fst x) =? id)%Z) rows))
      by (apply filter_In; split; [assumption | now apply Z.eqb_eq]).
    destruct (filter (fun x : joined => (q_id (fst x) =? id)%Z) rows)
      as [|[q n] rest] eqn:Hf; [destruct Hg |].
    assert (Hq : q_id q = id).
    { assert (Hin : In (q, n) (filter (fun x : joined => (q_id (fst x) =? id)%Z) rows))
        by (rewrite Hf; now left).
      apply filter_In in Hin as [_ Hin]. now apply Z.eqb_eq in Hin. }
    exists (mkRow (q_id q) (q_language q) (q_type q) (q_task q)
              (group_concat (n :: map snd rest))).
    split; [exact Hq |].
    unfold group_by_id. apply in_flat_map. exists id. split.
    + apply nodup_In. apply in_map_iff. exists r. tauto.
    + unfold select_group. rewrite Hf. now left.
Qed.

Lemma bind_all (tags : list string) (config : option QueryConfig) :
  tags <> [] ->
  match_all config = true ->
  bind (statement_of "" "" tags config) (arguments_of "" "" tags config)
  = Some (mkBound
            (Some (map AString tags, AInt (Z.of_nat (length tags)))) []).
Proof.
  intros Hne Hall. unfold statement_of, arguments_of. rewrite Hall.
  destruct tags as [|t tags]; [congruence |].
  change (0 <? length (t :: tags))%nat with true.
  cbn [andb negb nonempty String.eqb app]. unfold bind.
  cbn [st_matching bind_matching st_where]. rewrite take_names. reflexivity.
Qed.

(** X7. In ALL mode, with no language and type filter and a non-empty list
    of distinct tag names, a successful call whose connection is not lost on
    the way returns exactly the stored questions linked to every tag of the
    list: the subquery keeps the question ids whose count of distinct
    matched names is the length of the list. *)
Lemma GetQuestions_all_mode_linked_to_every_tag
    (fl : faults) (db : storage) (tags : list string)
    (config : option QueryConfig) (qs : slice Question) :
  tags <> [] ->
  match_all config = true ->
  NoDup (map (collation_key E) tags) ->
  lost_after fl = None ->
  GetQuestions E fl db "" "" tags config = Ok qs ->
  forall id,
    In id (map ID (elems qs)) <->
    (exists q, In q (questions db) /\ q_id q = id) /\
    forall tag, In tag tags ->
      exists n, In n (linked_names db id) /\ same_name E n tag = true.
Proof.
  intros Hne Hall Htags Hlost Hok id.
  destruct (GetQuestions_complete E fl db "" "" tags config qs Hlost Hok)
    as [b [Hb Hqs]].
  rewrite bind_all in Hb by assumption. injection Hb as <-.
  rewrite Hqs, map_map.
  change (map (fun r => ID (scan r))) with (map c_id).
  rewrite evaluate_selected, group_by_id_ids. split.
  - intros [r [Hr Hid]]. apply in_selected in Hr as [Hfrom [Hm _]].
    cbn [bs_matching] in Hm. rewrite Hid in Hm. split.
    + exists (fst r). split; [now apply in_from_rows_question | assumption].
    + exact (proj1 (in_matching_tags db tags id Hne Htags) Hm).
  - intros [[q [Hq Hid]] Hlinked].
    destruct (join_question_not_nil db q) as [o Ho].
    exists (q, o). split; [|assumption].
    apply in_selected. cbn [bs_matching bs_where forallb fst]. split3.
    + unfold from_rows. apply in_flat_map. eauto.
    + rewrite Hid. exact (proj2 (in_matching_tags db tags id Hne Htags) Hlinked).
    + reflexivity.
Qed.

End AllMode.

(** ** Splitting the tag column *)






(** ** The tag list of a returned question *)




Lemma same_elements_nil {A} (l : list A) : same_elements [] l <-> l = [].
Proof.
  unfold same_elements. split.
  - intros H. destruct l as [|x l]; [reflexivity |].
    destruct (proj2 (H x)). now left.
  - intros ->. tauto.
Qed.


(** ** The write transaction *)

Lemma quiet_refl c : quiet c c.
Proof. exists []. split; [now rewrite app_nil_r | constructor]. Qed.

Lemma quiet_trans c1 c2 c3 : quiet c1 c2 -> quiet c2 c3 -> quiet c1 c3.
Proof.
  intros [p1 [H1 F1]] [p2 [H2 F2]]. exists (p1 ++ p2)%list. split.
  - now rewrite H2, H1, app_assoc.
  - apply Forall_app. tauto.
Qed.

Lemma quiet_failed c1 c2 c3 msg :
  quiet c1 c2 -> failed_with c2 c3 msg -> failed_with c1 c3 msg.
Proof.
  intros [p1 [H1 F1]] [p2 [k [e [H2 [F2 Hm]]]]].
  exists (p1 ++ p2)%list, k, e. repeat split.
  - now rewrite H2, H1, !app_assoc.
  - apply Forall_app. tauto.
  - assumption.
Qed.

Lemma attempt_spec fp k refused c ans c' :
  attempt fp k refused c = (ans, c') ->
  store c' = store c /\ snapshot c' = snapshot c /\
  journal c' = (journal c ++ [(k, ans)])%list.
Proof. unfold attempt. intros H. injection H as <- <-. simpl. tauto. Qed.

Lemma attempt_quiet fp k refused c c' :
  attempt fp k refused c = (None, c') -> quiet c c'.
Proof.
  intros H. apply attempt_spec in H as (_ & _ & Hj).
  exists [(k, None)]. split; [assumption | repeat constructor].
Qed.

Lemma attempt_failed fp k refused c e c' :
  attempt fp k refused c = (Some e, c') ->
  failed_with c c' (context_of k ++ e).
Proof.
  intros H. apply attempt_spec in H as (_ & _ & Hj).
  exists [], k, e. repeat split; [assumption | constructor].
Qed.

Lemma Rollback_store c s0 :
  snapshot c = Some s0 -> store (Rollback c) = s0.
Proof. unfold Rollback. now intros ->. Qed.

Lemma Rollback_journal c : journal (Rollback c) = journal c.
Proof. unfold Rollback. now destruct (snapshot c). Qed.

Lemma failed_Rollback c c' msg :
  failed_with c c' msg -> failed_with c (Rollback c') msg.
Proof. unfold failed_with. now rewrite Rollback_journal. Qed.

Lemma same_link_eq (a b : link_row) : same_link a b = true <-> a = b.
Proof.
  destruct a as [q1 t1], b as [q2 t2]. unfold same_link; simpl.
  rewrite andb_true_iff, !Z.eqb_eq. split.
  - intros [-> ->]. reflexivity.
  - intros H. injection H as -> ->. tauto.
Qed.

Lemma has_link_false (s : storage) (l : link_row) :
  has_link s l = false -> ~ In l (question_tags s).
Proof.
  unfold has_link. intros H Hin.
  assert (Ht : existsb (same_link l) (question_tags s) = true).
  { apply existsb_exists. exists l. split; [assumption | now apply same_link_eq]. }
  congruence.
Qed.

Lemma NoDup_snoc {A} (l : list A) (x : A) :
  NoDup l -> ~ In x l -> NoDup (l ++ [x])%list.
Proof.
  intros Hl Hx. apply NoDup_app; [assumption | repeat constructor; intros [] |].
  intros a Ha [<- | []]. contradiction.
Qed.

Section Transaction.

Variable E : engine.
Variable fp : plan.

Lemma links_unique_Rollback c : links_unique c -> links_unique (Rollback c).
Proof.
  intros H. unfold Rollback.
  destruct (snapshot c) as [s|] eqn:Hsnap; [|exact H].
  split; simpl; [now apply H | discriminate].
Qed.

Lemma insert_question_spec language qType task c :
  match insert_question fp language qType task c with
  | (inl e, c') =>
      snapshot c' = snapshot c /\ store c' = store c /\
      failed_with c c' (context_of CInsertQuestion ++ e)
  | (inr _, c') =>
      snapshot c' = snapshot c /\ quiet c c' /\
      question_tags (store c') = question_tags (store c)
  end.
Proof.
  unfold insert_question.
  destruct (attempt _ _ _ c) as [[e|] c1] eqn:Ha.
  - pose proof (attempt_failed _ _ _ _ _ _ Ha).
    apply attempt_spec in Ha as (? & ? & ?). cbn iota beta. tauto.
  - pose proof (attempt_quiet _ _ _ _ _ Ha) as [pre Hq].
    apply attempt_spec in Ha as (Hs & ? & ?). simpl.
    repeat split; [assumption | exists pre; exact Hq | now rewrite Hs].
Qed.

Lemma insert_tag_spec name c :
  match insert_tag E fp name c with
  | (inl e, c') =>
      snapshot c' = snapshot c /\ store c' = store c /\
      failed_with c c' (context_of (CInsertTag name) ++ e)
  | (inr _, c') =>
      snapshot c' = snapshot c /\ quiet c c' /\
      question_tags (store c') = question_tags (store c)
  end.
Proof.
  unfold insert_tag.
  destruct (attempt _ _ _ c) as [[e|] c1] eqn:Ha.
  - pose proof (attempt_failed _ _ _ _ _ _ Ha).
    apply attempt_spec in Ha as (? & ? & ?). cbn iota beta. tauto.
  - pose proof (attempt_quiet _ _ _ _ _ Ha) as [pre Hq].
    apply attempt_spec in Ha as (Hs & ? & ?). simpl.
    repeat split; [assumption | exists pre; exact Hq | now rewrite Hs].
Qed.

Lemma insert_link_spec question_id tag_id c :
  match insert_link fp question_id tag_id c with
  | (Some e, c') =>
      snapshot c' = snapshot c /\ store c' = store c /\
      failed_with c c' (context_of (CInsertLink question_id tag_id) ++ e)
  | (None, c') =>
      snapshot c' = snapshot c /\ quiet c c' /\
      question_tags (store c')
      = (question_tags (store c) ++ [mkLink question_id tag_id])%list /\
      ~ In (mkLink question_id tag_id) (question_tags (store c))
  end.
Proof.
  unfold insert_link.
  destruct (attempt _ _ _ c) as [[e|] c1] eqn:Ha.
  - pose proof (attempt_failed _ _ _ _ _ _ Ha).
    apply attempt_spec in Ha as (? & ? & ?). cbn iota beta. tauto.
  - pose proof (attempt_quiet _ _ _ _ _ Ha) as [pre Hq].
    assert (Hfree : has_link (store c) (mkLink question_id tag_id) = false).
    { unfold attempt in Ha. injection Ha as Hans _.
      destruct (fp (clock c)); [discriminate |].
      destruct (has_link _ _); [discriminate | reflexivity]. }
    apply attempt_spec in Ha as (Hs & ? & ?). simpl.
    repeat split;
      [assumption | exists pre; exact Hq | now rewrite Hs
      | now apply has_link_false].
Qed.

Lemma LastInsertId_spec k id c :
  match LastInsertId fp k id c with
  | (inl e, c') =>
      snapshot c' = snapshot c /\ store c' = store c /\
      failed_with c c' (context_of k ++ e)
  | (inr _, c') =>
      snapshot c' = snapshot c /\ store c' = store c /\ quiet c c'
  end.
Proof.
  unfold LastInsertId.
  destruct (attempt _ _ _ c) as [[e|] c1] eqn:Ha.
  - pose proof (attempt_failed _ _ _ _ _ _ Ha).
    apply attempt_spec in Ha as (? & ? & ?). cbn iota beta. tauto.
  - pose proof (attempt_quiet _ _ _ _ _ Ha).
    apply attempt_spec in Ha as (? & ? & ?). cbn iota beta. tauto.
Qed.

Lemma select_tag_id_spec name c :
  match select_tag_id E fp name c with
  | (inl e, c') =>
      snapshot c' = snapshot c /\ store c' = store c /\
      failed_with c c' (context_of (CSelectTag name) ++ e)
  | (inr _, c') =>
      snapshot c' = snapshot c /\ store c' = store c /\ quiet c c'
  end.
Proof.
  unfold select_tag_id.
  destruct (attempt _ _ _ c) as [[e|] c1] eqn:Ha.
  - pose proof (attempt_failed _ _ _ _ _ _ Ha).
    apply attempt_spec in Ha as (? & ? & ?). cbn iota beta. tauto.
  - pose proof (attempt_quiet _ _ _ _ _ Ha).
    apply attempt_spec in Ha as (? & ? & ?). cbn iota beta. tauto.
Qed.

End Transaction.

Section Atomicity.

Variable E : engine.
Variable fp : plan.

Lemma links_unique_same c c' :
  snapshot c' = snapshot c ->
  question_tags (store c') = question_tags (store c) ->
  links_unique c -> links_unique c'.
Proof. unfold links_unique. intros -> ->. tauto. Qed.

Lemma goes_on_trans s0 c1 c2 c3 :
  goes_on s0 c1 c2 -> goes_on s0 c2 c3 -> goes_on s0 c1 c3.
Proof.
  intros (_ & Hq1 & Hl1) (Hs & Hq2 & Hl2).
  split3; [assumption | eapply quiet_trans; eassumption | tauto].
Qed.

Lemma goes_on_gives_up s0 c1 c2 c3 msg :
  goes_on s0 c1 c2 -> gives_up s0 c2 c3 msg -> gives_up s0 c1 c3 msg.
Proof.
  intros (_ & Hq1 & Hl1) (Hs & Hq2 & Hl2).
  split3; [assumption | eapply quiet_failed; eassumption | tauto].
Qed.

(** An error inside the transaction, followed by [Rollback]. *)
Lemma rolled_back s0 c c' msg :
  snapshot c = Some s0 ->
  snapshot c' = snapshot c ->
  question_tags (store c') = question_tags (store c) ->
  failed_with c c' msg ->
  gives_up s0 c (Rollback c') msg.
Proof.
  intros Hs0 Hs Hq Hf. split3.
  - apply Rollback_store. congruence.
  - now apply failed_Rollback.
  - intros Hl. apply links_unique_Rollback.
    eapply links_unique_same; eassumption.
Qed.

Lemma tag_id_for_spec s0 tag c :
  snapshot c = Some s0 ->
  match tag_id_for E fp tag c with
  | (inl msg, c') => gives_up s0 c c' msg
  | (inr _, c') => goes_on s0 c c'
  end.
Proof.
  intros Hs0. unfold tag_id_for.
  pose proof (select_tag_id_spec E fp tag c) as H1.
  destruct (select_tag_id E fp tag c) as [[e|[tagID|]] c1].
  - destruct H1 as (Hs & Hst & Hf).
    apply rolled_back; [assumption | assumption | now rewrite Hst | exact Hf].
  - destruct H1 as (Hs & Hst & Hq).
    split3; [congruence | assumption |].
    apply links_unique_same; [assumption | now rewrite Hst].
  - destruct H1 as (Hs1 & Hst1 & Hq1).
    assert (G1 : goes_on s0 c c1).
    { split3; [congruence | assumption |].
      apply links_unique_same; [assumption | now rewrite Hst1]. }
    pose proof (insert_tag_spec E fp tag c1) as H2.
    destruct (insert_tag E fp tag c1) as [[e|id] c2].
    + destruct H2 as (Hs2 & Hst2 & Hf2).
      eapply goes_on_gives_up; [exact G1 |].
      apply rolled_back; [congruence | assumption | now rewrite Hst2 | exact Hf2].
    + destruct H2 as (Hs2 & Hq2 & Hl2).
      assert (G2 : goes_on s0 c c2).
      { eapply goes_on_trans; [exact G1 |].
        split3; [congruence | assumption |].
        now apply links_unique_same. }
      pose proof (LastInsertId_spec fp CTagId id c2) as H3.
      destruct (LastInsertId fp CTagId id c2) as [[e|tagID] c3].
      * destruct H3 as (Hs3 & Hst3 & Hf3).
        eapply goes_on_gives_up; [exact G2 |].
        apply rolled_back;
          [congruence | assumption | now rewrite Hst3 | exact Hf3].
      * destruct H3 as (Hs3 & Hst3 & Hq3).
        eapply goes_on_trans; [exact G2 |].
        split3; [congruence | assumption |].
        apply links_unique_same; [assumption | now rewrite Hst3].
Qed.

Lemma link_tags_spec s0 questionID tags :
  forall c,
    snapshot c = Some s0 ->
    match link_tags E fp questionID tags c with
    | (Some msg, c') => gives_up s0 c c' msg
    | (None, c') => goes_on s0 c c'
    end.
Proof.
  induction tags as [|tag rest IH]; intros c Hs0; cbn [link_tags].
  - split3; [assumption | apply quiet_refl | tauto].
  - pose proof (tag_id_for_spec s0 tag c Hs0) as H1.
    destruct (tag_id_for E fp tag c) as [[msg|tagID] c1]; [exact H1 |].
    pose proof (insert_link_spec fp questionID tagID c1) as H2.
    destruct (insert_link fp questionID tagID c1) as [[e|] c2].
    + destruct H2 as (Hs2 & Hst2 & Hf2).
      eapply goes_on_gives_up; [exact H1 |].
      apply rolled_back;
        [apply H1 | assumption | now rewrite Hst2 | exact Hf2].
    + destruct H2 as (Hs2 & Hq2 & Hadd & Hfree).
      assert (G2 : goes_on s0 c c2).
      { eapply goes_on_trans; [exact H1 |].
        split3; [destruct H1; congruence | assumption |].
        intros [Hl Hsn]. split.
        - rewrite Hadd. now apply NoDup_snoc.
        - now rewrite Hs2. }
      specialize (IH c2 (proj1 G2)).
      destruct (link_tags E fp questionID rest c2) as [[msg|] c3].
      * eapply goes_on_gives_up; eassumption.
      * eapply goes_on_trans; eassumption.
Qed.

Lemma gives_up_finish c c1 c' msg :
  quiet c c1 ->
  (NoDup (question_tags (store c)) -> links_unique c1) ->
  gives_up (store c) c1 c' msg ->
  (store c' = store c /\ failed_with c c' msg) /\
  (NoDup (question_tags (store c)) -> NoDup (question_tags (store c'))).
Proof.
  intros Hq Hl (Hst & Hf & Hl').
  split; [split; [assumption | eapply quiet_failed; eassumption] |].
  intros Hn. exact (proj1 (Hl' (Hl Hn))).
Qed.

(** What [AddQuestion] leaves behind, by its result. *)
Lemma AddQuestion_spec q c :
  match AddQuestion E fp q c with
  | (Some msg, c') =>
      (store c' = store c /\ failed_with c c' msg) /\
      (NoDup (question_tags (store c)) -> NoDup (question_tags (store c')))
  | (None, c') =>
      quiet c c' /\
      (NoDup (question_tags (store c)) -> NoDup (question_tags (store c')))
  end.
Proof.
  unfold AddQuestion, Begin.
  destruct (attempt fp CBegin None c) as [[e|] c0] eqn:Ha.
  - pose proof (attempt_failed _ _ _ _ _ _ Ha) as Hf.
    apply attempt_spec in Ha as (Hst & _ & _).
    split; [split; assumption | now rewrite Hst].
  - pose proof (attempt_quiet _ _ _ _ _ Ha) as Hq.
    apply attempt_spec in Ha as (Hst & _ & _).
    set (c1 := mkConnection (store c0) (Some (store c0)) (counters c0)
                 (clock c0) (journal c0)).
    assert (Hs1 : snapshot c1 = Some (store c)) by (simpl; congruence).
    assert (Hq1 : quiet c c1) by exact Hq.
    assert (Hl1 : NoDup (question_tags (store c)) -> links_unique c1).
    { intros Hn. split; simpl; [congruence |].
      intros s Hs. injection Hs as <-. congruence. }
    pose proof (insert_question_spec fp (Language q) (Type_ q) (Task q) c1)
      as H2.
    destruct (insert_question fp (Language q) (Type_ q) (Task q) c1)
      as [[e|id] c2].
    { destruct H2 as (Hs2 & Hst2 & Hf2).
      apply (gives_up_finish c c1); [assumption | assumption |].
      apply rolled_back; [assumption | assumption | now rewrite Hst2 | exact Hf2]. }
    destruct H2 as (Hs2 & Hq2 & Hl2).
    assert (G2 : goes_on (store c) c1 c2).
    { split3; [congruence | assumption | now apply links_unique_same]. }
    pose proof (LastInsertId_spec fp CQuestionId id c2) as H3.
    destruct (LastInsertId fp CQuestionId id c2) as [[e|questionID] c3].
    { destruct H3 as (Hs3 & Hst3 & Hf3).
      apply (gives_up_finish c c1); [assumption | assumption |].
      eapply goes_on_gives_up; [exact G2 |].
      apply rolled_back;
        [apply G2 | assumption | now rewrite Hst3 | exact Hf3]. }
    destruct H3 as (Hs3 & Hst3 & Hq3).
    assert (G3 : goes_on (store c) c1 c3).
    { eapply goes_on_trans; [exact G2 |].
      split3; [destruct G2; congruence | assumption |].
      apply links_unique_same; [assumption | now rewrite Hst3]. }
    pose proof (link_tags_spec (store c) questionID (elems (Tags q)) c3
                  (proj1 G3)) as H4.
    destruct (link_tags E fp questionID (elems (Tags q)) c3) as [[msg|] c4].
    { apply (gives_up_finish c c1); [assumption | assumption |].
      eapply goes_on_gives_up; eassumption. }
    assert (G4 : goes_on (store c) c1 c4)
      by (eapply goes_on_trans; eassumption).
    destruct G4 as (Hs4 & Hq4 & Hl4).
    unfold Commit.
    destruct (attempt fp CCommit None c4) as [[e|] c5] eqn:Hc.
    + pose proof (attempt_failed _ _ _ _ _ _ Hc) as Hf5.
      apply attempt_spec in Hc as (Hst5 & Hs5 & _).
      apply (gives_up_finish c c1); [assumption | assumption |].
      eapply goes_on_gives_up; [split3; eassumption |].
      apply rolled_back; [assumption | assumption | now rewrite Hst5 | exact Hf5].
    + pose proof (attempt_quiet _ _ _ _ _ Hc) as Hq5.
      apply attempt_spec in Hc as (Hst5 & _ & _).
      split.
      * eapply quiet_trans; [exact Hq1 |].
        eapply quiet_trans; [exact Hq4 | exact Hq5].
      * intros Hn. simpl. rewrite Hst5. exact (proj1 (Hl4 (Hl1 Hn))).
Qed.

End Atomicity.

(** C3. If a call of [AddQuestion] fails (the begin, the question insert,
    reading an id, the tag lookup, the tag insert, the association insert,
    the commit), the tables are afterwards what they were before, the failed
    call is the last one made and the only one that failed, and its error is
    the one returned, in the context of that call. *)
Theorem AddQuestion_atomic E fp q c r c' calls :
  AddQuestion E fp q c = (r, c') ->
  journal c' = (journal c ++ calls)%list ->
  (exists k e, In (k, Some e) calls) ->
  store c' = store c /\
  exists pre k e,
    calls = (pre ++ [(k, Some e)])%list /\
    Forall answered_ok pre /\
    r = Some (context_of k ++ e).
Proof.
  intros Hrun Hcalls [k0 [e0 Hin]].
  pose proof (AddQuestion_spec E fp q c) as H. rewrite Hrun in H.
  destruct r as [msg|].
  - destruct H as [[Hst [pre [k [e [Hj [Hpre ->]]]]]] _].
    split; [assumption |]. exists pre, k, e. repeat split; [|assumption].
    rewrite Hj in Hcalls. now apply app_inv_head in Hcalls.
  - destruct H as [[pre [Hj Hpre]] _]. exfalso.
    rewrite Hj in Hcalls. apply app_inv_head in Hcalls. subst pre.
    rewrite Forall_forall in Hpre. specialize (Hpre _ Hin). discriminate.
Qed.

(** C8. [AddQuestion] never leaves two equal (question id, tag id) links in
    [question_tags], whatever the tag list and whether it succeeds or not. *)
Theorem AddQuestion_no_duplicate_links E fp q c :
  NoDup (question_tags (store c)) ->
  NoDup (question_tags (store (snd (AddQuestion E fp q c)))).
Proof.
  intros Hn. pose proof (AddQuestion_spec E fp q c) as H.
  destruct (AddQuestion E fp q c) as [[msg|] c']; simpl; now apply H.
Qed.

(** ** The defects, on the rows of init.sql *)

(** C7. In ALL mode with a language filter the text has the placeholders of
    the tag names and of the tag count before the one of the language, while
    the arguments start with the language: the language is bound to a tag
    name, the last tag to the count, and the count to the language. *)
Theorem GetQuestions_query_all_mode_misbound :
  option_map placeholders
    (parse_statement (fst (GetQuestions_query "en" "" ["18+"; "alcohol"] ALL)))
  = Some [RTagName; RTagName; RTagCount; RLanguage] /\
  snd (GetQuestions_query "en" "" ["18+"; "alcohol"] ALL)
  = [AString "en"; AString "18+"; AString "alcohol"; AInt 2] /\
  bind (statement_of "en" "" ["18+"; "alcohol"] ALL)
       (arguments_of "en" "" ["18+"; "alcohol"] ALL)
  = Some (mkBound (Some ([AString "en"; AString "18+"], AString "alcohol"))
            [BLanguage (AInt 2)]).
Proof. repeat split; vm_compute; reflexivity. Qed.

(** C1. Question 2 is in English and linked to both "18+" and "alcohol",
    question 1 to "18+" only.  With the arguments bound as above, asking for
    the English questions with both tags never returns question 2 alone,
    whatever the engine makes of a text compared with a number, and returns
    nothing when it never equates them.  And asking for the tag "18+" twice
    returns nothing, although question 1 is stored and linked to every tag
    of the list: the count of distinct matched names (one) is compared with
    the length of the list (two). *)
Theorem GetQuestions_all_mode_wrong_result :
  (forall ieq,
     returned_ids
       (GetQuestions (mkEngine (fun s => s) ieq) no_faults init_sql
          "en" "" ["18+"; "alcohol"] ALL) <> Some [2%Z]) /\
  returned_ids
    (GetQuestions binary_collation no_faults init_sql
       "en" "" ["18+"; "alcohol"] ALL) = Some [] /\
  GetQuestions binary_collation no_faults init_sql "" "" ["18+"; "18+"] ALL
  = Ok nil_slice /\
  (exists q, In q (questions init_sql) /\ q_id q = 1%Z) /\
  (forall tag, In tag ["18+"; "18+"] ->
     exists n, In n (linked_names init_sql 1) /\
               same_name binary_collation n tag = true).
Proof.
  split.
  { intros ieq. vm_compute.
    destruct (ieq ColTagCount "alcohol" 1%Z); [|discriminate].
    destruct (ieq ColLanguage "en" 2%Z), (ieq ColLanguage "de" 2%Z);
      discriminate. }
  split; [vm_compute; reflexivity |].
  split; [vm_compute; reflexivity |].
  split.
  - eexists. split; [left; reflexivity | reflexivity].
  - intros tag [<- | [<- | []]]; exists "18+";
      (split; [vm_compute; now left | reflexivity]).
Qed.

(** C2. In ANY mode the tag list of a returned question holds the matched
    tags only: question 2 is linked to "alcohol" and "18+" and comes back
    with "alcohol" alone. *)
Theorem GetQuestions_any_mode_matched_tags_only :
  GetQuestions binary_collation no_faults init_sql "" "" ["alcohol"] ANY
  = Ok (mk_slice
          [mkQuestion 2 "en" "dare" "Take a shot of vodka." (mk_slice ["alcohol"])]) /\
  linked_names init_sql 2 = ["alcohol"; "18+"].
Proof. split; vm_compute; reflexivity. Qed.

(** C5. When the connection is lost after the first row, [Next] returns
    false, the loop ends, and the one question read so far is returned as a
    success; the complete answer has two questions. *)
Theorem GetQuestions_truncated_on_lost_connection :
  GetQuestions binary_collation
    (mkFaults None (fun _ => None) (Some (1%nat, "invalid connection")))
    init_sql "en" "" [] None
  = Ok (mk_slice [question_1]) /\
  GetQuestions binary_collation no_faults init_sql "en" "" [] None
  = Ok (mk_slice [question_1; question_2]).
Proof. split; vm_compute; reflexivity. Qed.

(** C10. In ANY mode the tag list is not the linked names even without a
    comma: no tag name linked to question 2 has one, and the list returned
    for it lacks "18+". *)
Theorem GetQuestions_any_mode_tags_differ :
  exists qs q,
    GetQuestions binary_collation no_faults init_sql "" "" ["alcohol"] ANY = Ok qs /\
    In q (elems qs) /\
    (forall n, In n (linked_names init_sql (ID q)) -> has_comma n = false) /\
    ~ same_elements (elems (Tags q)) (linked_names init_sql (ID q)).
Proof.
  exists (mk_slice
            [mkQuestion 2 "en" "dare" "Take a shot of vodka." (mk_slice ["alcohol"])]),
         (mkQuestion 2 "en" "dare" "Take a shot of vodka." (mk_slice ["alcohol"])).
  split; [vm_compute; reflexivity |].
  split; [left; reflexivity |].
  split.
  - intros n Hn. vm_compute in Hn.
    destruct Hn as [<- | [<- | []]]; reflexivity.
  - intros Hsame. assert (Hin : In "18+" ["alcohol"]).
    { apply (Hsame "18+"). vm_compute. right. now left. }
    destruct Hin as [Heq | []]. discriminate.
Qed.

(** ** Instances *)

Lemma GetQuestions_all_mode_linked_to_every_tag_witness :
  In 2%Z (map ID (elems (mk_slice [question_2]))) <->
  (exists q, In q (questions init_sql) /\ q_id q = 2%Z) /\
  forall tag, In tag ["18+"; "alcohol"] ->
    exists n, In n (linked_names init_sql 2) /\
              same_name binary_collation n tag = true.
Proof.
  apply (GetQuestions_all_mode_linked_to_every_tag binary_collation no_faults
           init_sql ["18+"; "alcohol"] ALL (mk_slice [question_2])).
  - discriminate.
  - reflexivity.
  - repeat (constructor; [simpl; intuition discriminate |]). constructor.
  - reflexivity.
  - vm_compute. reflexivity.
Defined.

Lemma GetQuestions_any_tag_linked_witness :
  exists tag name,
    In tag ["alcohol"] /\
    In name (linked_names init_sql (ID question_2_matched)) /\
    same_name binary_collation name tag = true.
Proof.
  apply (GetQuestions_any_tag_linked binary_collation no_faults init_sql
           "" "" ["alcohol"] ANY (mk_slice [question_2_matched])).
  - discriminate.
  - reflexivity.
  - vm_compute. reflexivity.
  - left. reflexivity.
Defined.

Lemma GetQuestions_no_tags_empty_list_witness :
  In question_5
    (match GetQuestions binary_collation no_faults with_untagged "" "truth" [] None with
     | Ok qs => elems qs
     | Err _ => []
     end) /\
  Tags question_5 = mk_slice [].
Proof.
  split; [vm_compute; tauto |].
  apply (GetQuestions_no_tags_empty_list binary_collation no_faults with_untagged
           "" "truth" [] None
           (mk_slice
              [question_1;
               mkQuestion 3 "de" "truth" "Hast du jemals Essen gestohlen?"
                 (mk_slice ["food"]);
               question_5])).
  - vm_compute. reflexivity.
  - right. right. left. reflexivity.
  - reflexivity.
Defined.


Lemma AddQuestion_atomic_witness :
  store (snd (AddQuestion binary_collation fails_at_link new_question fresh_connection))
  = init_sql /\
  fst (AddQuestion binary_collation fails_at_link new_question fresh_connection)
  = Some "failed to insert question tag: Lock wait timeout exceeded".
Proof.
  destruct (AddQuestion_atomic binary_collation fails_at_link new_question
              fresh_connection
              (fst (AddQuestion binary_collation fails_at_link new_question
                      fresh_connection))
              (snd (AddQuestion binary_collation fails_at_link new_question
                      fresh_connection))
              [(CBegin, None); (CInsertQuestion, None); (CQuestionId, None);
               (CSelectTag "newtag", None); (CInsertTag "newtag", None);
               (CTagId, None);
               (CInsertLink 5 4, Some "Lock wait timeout exceeded")])
    as [Hstore _].
  - vm_compute. reflexivity.
  - vm_compute. reflexivity.
  - exists (CInsertLink 5 4), "Lock wait timeout exceeded".
    do 6 right. left. reflexivity.
  - split; [exact Hstore | vm_compute; reflexivity].
Defined.

Lemma init_sql_links_unique : NoDup (question_tags init_sql).
Proof.
  repeat (constructor; [simpl; intuition discriminate |]). constructor.
Defined.

Lemma AddQuestion_no_duplicate_links_witness :
  NoDup (question_tags
           (store (snd (AddQuestion binary_collation no_failures twice_tagged
                          fresh_connection)))).
Proof.
  apply (AddQuestion_no_duplicate_links binary_collation no_failures twice_tagged
           fresh_connection).
  exact init_sql_links_unique.
Defined.

(** * Further properties *)

(** ** The text always takes the arguments *)

Lemma take_enough (n : nat) (vs : list arg) :
  (n <= length vs)%nat -> take n vs = Some (firstn n vs, skipn n vs).
Proof.
  intros H. unfold take.
  now replace (n <=? length vs)%nat with true by (symmetry; now apply Nat.leb_le).
Qed.

Lemma bind_where_enough (ps : list predicate) :
  forall vs,
    (list_sum (map needs ps) <= length vs)%nat ->
    exists bs,
      bind_where ps vs = Some (bs, skipn (list_sum (map needs ps)) vs).
Proof.
  induction ps as [|p ps IH]; intros vs Hlen; simpl in *.
  - now exists [].
  - assert (Hrest : (list_sum (map needs ps)
                     <= length (skipn (needs p) vs))%nat)
      by (rewrite length_skipn; lia).
    destruct (IH _ Hrest) as [bs Hbs].
    rewrite skipn_skipn in Hbs.
    rewrite (Nat.add_comm (list_sum _)) in Hbs.
    destruct p as [| |n]; simpl needs in *.
    + destruct vs as [|v vs]; [simpl in Hlen; lia |].
      simpl skipn in Hbs. rewrite Hbs. eauto.
    + destruct vs as [|v vs]; [simpl in Hlen; lia |].
      simpl skipn in Hbs. rewrite Hbs. eauto.
    + rewrite take_enough by lia. rewrite Hbs. eauto.
Qed.

Lemma placeholders_length (st : statement) :
  length (placeholders st)
  = (match st_matching st with Some n => n + 1 | None => 0 end
     + list_sum (map needs (st_where st)))%nat.
Proof.
  unfold placeholders. rewrite length_app. f_equal.
  - destruct (st_matching st); [|reflexivity].
    now rewrite length_app, repeat_length.
  - induction (st_where st) as [|p ps IH]; [reflexivity |].
    simpl. rewrite length_app, IH. f_equal.
    destruct p; simpl; [reflexivity | reflexivity | apply repeat_length].
Qed.

(** A statement binds any argument list that has one argument for each of
    its placeholders. *)
Lemma bind_enough (st : statement) (vs : list arg) :
  length vs = length (placeholders st) ->
  exists b, bind st vs = Some b.
Proof.
  rewrite placeholders_length. intros Hlen. unfold bind.
  destruct (st_matching st) as [n|]; cbn [bind_matching].
  - rewrite take_enough by lia.
    destruct (skipn n vs) as [|v rest] eqn:Hskip.
    { apply (f_equal (@length arg)) in Hskip.
      rewrite length_skipn in Hskip. simpl in Hskip. lia. }
    assert (Hrest : length rest = list_sum (map needs (st_where st))).
    { apply (f_equal (@length arg)) in Hskip.
      rewrite length_skipn in Hskip. simpl in Hskip. lia. }
    destruct (bind_where_enough (st_where st) rest) as [bs Hbs]; [lia |].
    rewrite Hbs, <- Hrest, skipn_all. eauto.
  - destruct (bind_where_enough (st_where st) vs) as [bs Hbs]; [lia |].
    simpl in Hlen. rewrite Hbs, <- Hlen, skipn_all. eauto.
Qed.

Lemma arguments_of_length language qType tags config :
  length (arguments_of language qType tags config)
  = length (placeholders (statement_of language qType tags config)).
Proof.
  unfold arguments_of, statement_of, placeholders.
  destruct (nonempty language), (nonempty qType), tags as [|t tags],
    (match_all config); simpl;
    rewrite ?length_app, ?length_map, ?repeat_length; simpl; lia.
Qed.

Lemma deliver_all_fetched (fl : faults) (rs : list sql_row) :
  (forall i, scan_fails fl i = None) ->
  Forall (fun ev => exists r, ev = Fetched r) (pending (deliver fl rs)).
Proof.
  intros Hscan. apply Forall_forall. intros ev Hev.
  assert (Hin : In ev
    (map (fun ir : nat * sql_row =>
            match scan_fails fl (fst ir) with
            | Some e => Undecodable e
            | None => Fetched (snd ir)
            end) (combine (seq 0 (length rs)) rs))).
  { unfold deliver in Hev.
    destruct (lost_after fl) as [[k e]|];
      [destruct (k <? length rs)%nat |]; simpl in Hev;
      eauto using in_firstn. }
  apply in_map_iff in Hin as [[i r] [<- _]]. simpl.
  rewrite Hscan. eauto.
Qed.

Lemma scan_rows_all_fetched (evs : list fetch) :
  Forall (fun ev => exists r, ev = Fetched r) evs ->
  forall acc, exists qs, scan_rows evs acc = Ok qs.
Proof.
  induction 1 as [|ev evs [r ->] _ IH]; intros acc; simpl; eauto.
Qed.

(** X1. Whatever the filters, the text [GetQuestions] builds is one the
    engine reads and has exactly as many placeholders as the argument list
    has arguments; so a call fails only when the driver does: with a query
    that is not refused and rows that all scan, the call succeeds. *)
Theorem GetQuestions_fails_only_with_the_driver
    E fl db language qType tags config :
  query_fails fl = None ->
  (forall i, scan_fails fl i = None) ->
  option_map (fun st => length (placeholders st))
    (parse_statement (fst (GetQuestions_query language qType tags config)))
  = Some (length (snd (GetQuestions_query language qType tags config))) /\
  exists qs, GetQuestions E fl db language qType tags config = Ok qs.
Proof.
  intros Hq Hscan. split.
  { rewrite GetQuestions_query_text, GetQuestions_query_args.
    rewrite parse_render_statement by apply statement_of_well_formed.
    simpl. now rewrite arguments_of_length. }
  unfold GetQuestions.
  pose proof (GetQuestions_query_text language qType tags config) as Ht.
  pose proof (GetQuestions_query_args language qType tags config) as Ha.
  destruct (GetQuestions_query language qType tags config) as [text vs].
  simpl in Ht, Ha. subst text vs.
  unfold Query. rewrite Hq.
  rewrite parse_render_statement by apply statement_of_well_formed.
  destruct (bind_enough _ _ (arguments_of_length language qType tags config))
    as [b ->].
  apply scan_rows_all_fetched, deliver_all_fetched, Hscan.
Qed.

(** ** What a successful read holds *)

Lemma scan_rows_firstn (fl : faults) (rs : list sql_row) :
  forall j k acc qs,
    scan_rows
      (firstn j
         (map (fun ir : nat * sql_row =>
                 match scan_fails fl (fst ir) with
                 | Some e => Undecodable e
                 | None => Fetched (snd ir)
                 end)
            (combine (seq k (length rs)) rs))) acc = Ok qs ->
    elems qs = (elems acc ++ map scan (firstn j rs))%list.
Proof.
  induction rs as [|r rs IH]; intros j k acc qs.
  - destruct j; simpl; intros H; injection H as <-; now rewrite app_nil_r.
  - destruct j as [|j]; simpl.
    + intros H. injection H as <-. now rewrite app_nil_r.
    + destruct (scan_fails fl k); [discriminate |].
      intros H. rewrite (IH _ _ _ _ H). simpl. now rewrite <- app_assoc.
Qed.

(** The questions of a successful read are the scans of the first rows of
    the evaluation, and of all of them when the connection was not lost. *)
Lemma GetQuestions_prefix E fl db language qType tags config qs :
  GetQuestions E fl db language qType tags config = Ok qs ->
  exists b rest,
    bind (statement_of language qType tags config)
         (arguments_of language qType tags config) = Some b /\
    map scan (evaluate E db b) = (elems qs ++ map scan rest)%list /\
    (lost_after fl = None -> rest = []).
Proof.
  unfold GetQuestions.
  pose proof (GetQuestions_query_text language qType tags config) as Ht.
  pose proof (GetQuestions_query_args language qType tags config) as Ha.
  destruct (GetQuestions_query language qType tags config) as [text vs].
  simpl in Ht, Ha. subst text vs.
  unfold Query.
  destruct (query_fails fl); [discriminate |].
  rewrite parse_render_statement by apply statement_of_well_formed.
  destruct (bind _ _) as [b|]; [|discriminate].
  unfold deliver.
  destruct (lost_after fl) as [[k e]|];
    [destruct (k <? length (evaluate E db b))%nat |]; cbn [pending]; intros H.
  - apply scan_rows_firstn in H. simpl in H.
    exists b, (skipn k (evaluate E db b)).
    split; [reflexivity |]. split; [|discriminate].
    now rewrite H, <- map_app, firstn_skipn.
  - apply scan_rows_complete in H. simpl in H.
    exists b, []. rewrite H, app_nil_r. auto.
  - apply scan_rows_complete in H. simpl in H.
    exists b, []. rewrite H, app_nil_r. auto.
Qed.

Lemma select_group_id (rows : list joined) (id : Z) (r : sql_row) :
  In r (select_group rows id) -> c_id r = id.
Proof.
  unfold select_group.
  destruct (filter (fun x : joined => (q_id (fst x) =? id)%Z) rows)
    as [|[q n] rest] eqn:Hf; [intros [] |].
  intros [<- | []]. simpl.
  assert (Hin : In (q, n) (filter (fun x : joined => (q_id (fst x) =? id)%Z) rows))
    by (rewrite Hf; now left).
  apply filter_In in Hin as [_ Hin]. now apply Z.eqb_eq in Hin.
Qed.

Lemma select_group_short (rows : list joined) (id : Z) :
  (length (select_group rows id) <= 1)%nat.
Proof.
  unfold select_group.
  destruct (filter (fun x : joined => (q_id (fst x) =? id)%Z) rows)
    as [|[q n] rest]; simpl; lia.
Qed.

Lemma group_by_id_NoDup (rows : list joined) :
  NoDup (map c_id (group_by_id rows)).
Proof.
  unfold group_by_id.
  assert (Hids : NoDup (nodup Z.eq_dec (map (fun r : joined => q_id (fst r)) rows)))
    by apply NoDup_nodup.
  induction Hids as [|id ids Hnot _ IH]; [constructor |].
  cbn [flat_map]. rewrite map_app. apply NoDup_app.
  - pose proof (select_group_short rows id) as Hlen.
    destruct (select_group rows id) as [|r [|r' rs]];
      simpl in *; [constructor | repeat constructor; intros [] | lia].
  - exact IH.
  - intros x Hx Hx'. apply in_map_iff in Hx as [r [<- Hr]].
    apply select_group_id in Hr. subst id. apply Hnot.
    apply in_map_iff in Hx' as [r' [Heq Hr']].
    apply in_flat_map in Hr' as [id' [Hid' Hr']].
    apply select_group_id in Hr'. congruence.
Qed.

(** X3. The questions of a successful result have pairwise distinct ids,
    also when a question matches several requested tags. *)
Theorem GetQuestions_ids_distinct E fl db language qType tags config qs :
  GetQuestions E fl db language qType tags config = Ok qs ->
  NoDup (map ID (elems qs)).
Proof.
  intros Hok.
  destruct (GetQuestions_prefix _ _ _ _ _ _ _ _ Hok) as [b [rest [_ [Hrows _]]]].
  pose proof (group_by_id_NoDup (selected E db b)) as Hn.
  rewrite <- evaluate_selected in Hn.
  replace (map c_id (evaluate E db b))
    with (map ID (map scan (evaluate E db b))) in Hn
    by (rewrite map_map; reflexivity).
  rewrite Hrows, map_app in Hn. eapply NoDup_app_remove_r. exact Hn.
Qed.

(** Outside ALL mode every placeholder receives the argument meant for it. *)
Lemma bind_unmatched language qType tags config :
  tags = [] \/ match_all config = false ->
  bind (statement_of language qType tags config)
       (arguments_of language qType tags config)
  = Some (mkBound None
            ((if nonempty language then [BLanguage (AString language)] else []) ++
             (if nonempty qType then [BType (AString qType)] else []) ++
             match tags with
             | [] => []
             | _ => [BTagIn (map AString tags)]
             end)%list).
Proof.
  intros [-> | Hany].
  - unfold statement_of, arguments_of, bind; simpl.
    destruct (nonempty language), (nonempty qType); reflexivity.
  - destruct tags as [|t tags].
    + unfold statement_of, arguments_of, bind; simpl.
      destruct (nonempty language), (nonempty qType); reflexivity.
    + apply bind_any; [discriminate | assumption].
Qed.

(** The rows selected outside ALL mode. *)
Lemma in_selected_unmatched E db language qType tags q o :
  In (q, o)
    (selected E db
       (mkBound None
          ((if nonempty language then [BLanguage (AString language)] else []) ++
           (if nonempty qType then [BType (AString qType)] else []) ++
           match tags with
           | [] => []
           | _ => [BTagIn (map AString tags)]
           end)%list)) <->
  In (q, o) (from_rows db) /\
  passes E language qType q = true /\
  (tags = [] \/
   exists n, o = Some n /\ name_in E n (map AString tags) = true).
Proof.
  rewrite in_selected. cbn [bs_matching bs_where]. unfold passes.
  assert (Hw : forallb (holds E (q, o))
                 ((if nonempty language then [BLanguage (AString language)] else []) ++
                  (if nonempty qType then [BType (AString qType)] else []) ++
                  match tags with
                  | [] => []
                  | _ => [BTagIn (map AString tags)]
                  end)%list = true <->
               ((negb (nonempty language) || same_name E (q_language q) language) &&
                (negb (nonempty qType) || same_name E (q_type q) qType))%bool = true /\
               (tags = [] \/
                exists n, o = Some n /\ name_in E n (map AString tags) = true)).
  { rewrite !forallb_app, !andb_true_iff.
    assert (Hl : forallb (holds E (q, o))
                   (if nonempty language then [BLanguage (AString language)] else [])
                 = (negb (nonempty language) || same_name E (q_language q) language)%bool)
      by (destruct (nonempty language); simpl; now rewrite ?andb_true_r).
    assert (Ht : forallb (holds E (q, o))
                   (if nonempty qType then [BType (AString qType)] else [])
                 = (negb (nonempty qType) || same_name E (q_type q) qType)%bool)
      by (destruct (nonempty qType); simpl; now rewrite ?andb_true_r).
    rewrite Hl, Ht.
    assert (Hn : forallb (holds E (q, o))
                   match tags with
                   | [] => []
                   | _ => [BTagIn (map AString tags)]
                   end = true <->
                 (tags = [] \/
                  exists n, o = Some n /\ name_in E n (map AString tags) = true)).
    { destruct tags as [|t tags].
      - simpl. split; [now left | reflexivity].
      - cbn [forallb holds snd]. rewrite andb_true_r. split.
        + destruct o as [n|]; [eauto | discriminate].
        + intros [Hnil | [n [-> Hn]]]; [discriminate | assumption]. }
    rewrite Hn. tauto. }
  rewrite Hw. tauto.
Qed.

(** X4. Every question of a successful result is a stored question, with
    the stored language, type and task; and outside ALL mode (no tag
    requested, or ANY mode) it passes the language and type filters. *)
Theorem GetQuestions_returns_stored_questions
    E fl db language qType tags config qs q :
  GetQuestions E fl db language qType tags config = Ok qs ->
  In q (elems qs) ->
  exists row,
    In row (questions db) /\
    ID q = q_id row /\ Language q = q_language row /\
    Type_ q = q_type row /\ Task q = q_task row /\
    (tags = [] \/ match_all config = false ->
     passes E language qType row = true).
Proof.
  intros Hok Hq.
  destruct (GetQuestions_Ok _ _ _ _ _ _ _ _ Hok) as [b [Hb Hrows]].
  destruct (Hrows q Hq) as [r [Hr ->]].
  rewrite evaluate_selected in Hr.
  destruct (in_group_by_id _ _ Hr) as [row [n [rest [Hg ->]]]].
  assert (Hsel : In (row, n) (selected E db b)).
  { assert (Hin : In (row, n)
        (filter (fun x : joined =>
                   (q_id (fst x) =?
                    c_id (mkRow (q_id row) (q_language row) (q_type row)
                            (q_task row) (group_concat (n :: map snd rest))))%Z)
           (selected E db b))) by (rewrite Hg; now left).
    now apply filter_In in Hin as [Hin _]. }
  exists row. simpl. repeat split.
  - apply in_selected in Hsel as [Hfrom _].
    now apply in_from_rows_question in Hfrom.
  - intros Hmode. rewrite (bind_unmatched _ _ _ _ Hmode) in Hb.
    injection Hb as <-. now apply in_selected_unmatched in Hsel.
Qed.

(** X5. Outside ALL mode, a successful read whose connection was not lost
    returns exactly the stored questions that pass the language and type
    filters and, when tags are requested, are linked to at least one of
    them. *)
Theorem GetQuestions_any_mode_exact
    E fl db language qType tags config qs :
  tags = [] \/ match_all config = false ->
  lost_after fl = None ->
  GetQuestions E fl db language qType tags config = Ok qs ->
  forall id,
    In id (map ID (elems qs)) <->
    exists row,
      In row (questions db) /\ q_id row = id /\
      passes E language qType row = true /\
      (tags = [] \/
       exists tag n, In tag tags /\ In n (linked_names db id) /\
                     same_name E n tag = true).
Proof.
  intros Hmode Hlost Hok id.
  destruct (GetQuestions_complete _ _ _ _ _ _ _ _ Hlost Hok) as [b [Hb Hqs]].
  rewrite (bind_unmatched _ _ _ _ Hmode) in Hb. injection Hb as <-.
  rewrite Hqs, map_map.
  change (map (fun r => ID (scan r))) with (map c_id).
  rewrite evaluate_selected, group_by_id_ids. split.
  - intros [[row o] [Hsel Hid]]. simpl in Hid.
    apply in_selected_unmatched in Hsel as [Hfrom [Hpass Hname]].
    exists row. split; [now apply in_from_rows_question in Hfrom |].
    split; [assumption |]. split; [assumption |].
    destruct Hname as [Hnil | [n [-> Hn]]]; [now left | right].
    apply name_in_tags in Hn as [tag [Htag Heq]].
    apply in_from_rows_name in Hfrom as [_ Hl].
    exists tag, n. rewrite <- Hid. tauto.
  - intros [row [Hrow [Hid [Hpass Hname]]]].
    destruct Hname as [Hnil | [tag [n [Htag [Hl Heq]]]]].
    + destruct (join_question_not_nil db row) as [o Ho].
      exists (row, o). split; [|assumption].
      apply in_selected_unmatched. split; [|tauto].
      unfold from_rows. apply in_flat_map. eauto.
    + exists (row, Some n). split; [|assumption].
      apply in_selected_unmatched. split.
      * apply in_from_rows_name. rewrite Hid. tauto.
      * split; [assumption |]. right. exists n. split; [reflexivity |].
        apply name_in_tags. eauto.
Qed.

(** X6. A successful read returns the first questions of the read without
    faults, in the same order, and all of them unless the connection was
    lost on the way: it never returns a question the complete answer lacks. *)
Theorem GetQuestions_prefix_of_complete
    E fl db language qType tags config qs :
  GetQuestions E fl db language qType tags config = Ok qs ->
  exists qs0 rest,
    GetQuestions E no_faults db language qType tags config = Ok qs0 /\
    elems qs0 = (elems qs ++ rest)%list /\
    (lost_after fl = None -> rest = []).
Proof.
  intros Hok.
  destruct (GetQuestions_prefix _ _ _ _ _ _ _ _ Hok)
    as [b [rest [Hb [Hrows Hrest]]]].
  destruct (GetQuestions_no_faults E db _ _ _ _ _ Hb) as [qs0 [Hok0 Hqs0]].
  exists qs0, (map scan rest). split; [assumption |].
  split; [congruence |]. intros Hlost. now rewrite (Hrest Hlost).
Qed.


(** ** What a successful write leaves *)

Lemma attempt_done fp k refused c c' :
  attempt fp k refused c = (None, c') ->
  refused = None /\ store c' = store c /\ snapshot c' = snapshot c /\
  counters c' = counters c.
Proof.
  unfold attempt. intros H. injection H as Hans <-. simpl.
  destruct (fp (clock c)); [discriminate | tauto].
Qed.

Lemma same_name_refl E (a : string) : same_name E a a = true.
Proof. unfold same_name. apply String.eqb_refl. Qed.

Lemma same_name_sym E (a b : string) : same_name E a b = same_name E b a.
Proof. unfold same_name. apply String.eqb_sym. Qed.

Lemma same_name_trans E (a b c : string) :
  same_name E a b = true -> same_name E b c = true -> same_name E a c = true.
Proof. rewrite !same_name_key. congruence. Qed.

(** A lookup depends on the name only through its collation key. *)
Lemma find_tag_same_name E (s : storage) (a b : string) :
  same_name E a b = true -> find_tag E s a = find_tag E s b.
Proof.
  intros Hab. unfold find_tag.
  induction (tags s) as [|t ts IH]; [reflexivity |]. simpl. rewrite IH.
  replace (same_name E (t_name t) b) with (same_name E (t_name t) a);
    [reflexivity |].
  unfold same_name in *. apply String.eqb_eq in Hab. now rewrite Hab.
Qed.

Lemma find_tag_found E (s : storage) (name : string) (row : tag_row) :
  find_tag E s name = Some row ->
  In row (tags s) /\ same_name E (t_name row) name = true.
Proof. unfold find_tag. apply find_some. Qed.

(** A tag found stays the tag found when rows are added to the table. *)
Lemma find_tag_stable E (s s' : storage) (name : string) (row : tag_row) ts :
  tags s' = (tags s ++ ts)%list ->
  find_tag E s name = Some row -> find_tag E s' name = Some row.
Proof.
  unfold find_tag. intros ->.
  induction (tags s) as [|t l IH]; simpl; [discriminate |].
  destruct (same_name E (t_name t) name); [tauto | exact IH].
Qed.

Lemma find_tag_new E (s : storage) (name : string) (id : Z) :
  find_tag E s name = None ->
  find (fun t => same_name E (t_name t) name) (tags s ++ [mkTagRow id name])
  = Some (mkTagRow id name).
Proof.
  unfold find_tag.
  induction (tags s) as [|t l IH]; simpl.
  - now rewrite same_name_refl.
  - destruct (same_name E (t_name t) name); [discriminate | exact IH].
Qed.

Section Effects.

Variable E : engine.
Variable fp : plan.

(** Lines 245-261, when they succeed: the tag returned is the tag a lookup
    of the name now finds; at most one tag row was added, with the name as
    given; nothing else changed. *)
Lemma tag_id_for_done tag c tagID c' :
  tag_id_for E fp tag c = (inr tagID, c') ->
  questions (store c') = questions (store c) /\
  question_tags (store c') = question_tags (store c) /\
  (exists ts,
     tags (store c') = (tags (store c) ++ ts)%list /\
     Forall (fun t => t_name t = tag) ts) /\
  exists row, find_tag E (store c') tag = Some row /\ t_id row = tagID.
Proof.
  unfold tag_id_for, select_tag_id.
  destruct (attempt fp (CSelectTag tag) None c) as [[e|] c1] eqn:H1;
    [discriminate |].
  apply attempt_done in H1 as (_ & Hs1 & _ & _).
  destruct (find_tag E (store c1) tag) as [row|] eqn:Hfind; cbn [option_map].
  - intros H. injection H as <- <-. rewrite Hs1.
    split; [reflexivity |]. split; [reflexivity |]. split.
    + exists []. split; [now rewrite app_nil_r | constructor].
    + exists row. rewrite <- Hs1. tauto.
  - unfold insert_tag.
    destruct (attempt fp (CInsertTag tag) _ c1) as [[e|] c2] eqn:H2;
      [discriminate |].
    apply attempt_done in H2 as (_ & Hs2 & _ & Hn2).
    unfold LastInsertId.
    destruct (attempt fp CTagId None _) as [[e|] c3] eqn:H3; [discriminate |].
    apply attempt_done in H3 as (_ & Hs3 & _ & _).
    cbn [store with_counters with_store] in Hs3.
    intros H. injection H as <- <-. rewrite Hs3.
    cbn [questions tags question_tags]. rewrite Hs2, Hs1.
    split; [reflexivity |]. split; [reflexivity |]. split.
    + eexists. split; [reflexivity |]. repeat constructor.
    + exists (mkTagRow (next_tag_id (counters c1)) tag).
      split; [|reflexivity].
      unfold find_tag at 1. cbn [tags]. rewrite <- Hs1.
      now apply find_tag_new.
Qed.

Lemma insert_link_done question_id tag_id c c' :
  insert_link fp question_id tag_id c = (None, c') ->
  questions (store c') = questions (store c) /\
  tags (store c') = tags (store c) /\
  question_tags (store c')
  = (question_tags (store c) ++ [mkLink question_id tag_id])%list /\
  ~ In (mkLink question_id tag_id) (question_tags (store c)).
Proof.
  unfold insert_link.
  destruct (attempt fp _ _ c) as [[e|] c1] eqn:H1; [discriminate |].
  apply attempt_done in H1 as (Hfree & Hs1 & _ & _).
  intros H. injection H as <-. cbn [store with_store questions tags question_tags].
  rewrite Hs1. repeat split.
  apply has_link_false.
  destruct (has_link (store c) (mkLink question_id tag_id));
    [discriminate | reflexivity].
Qed.

(** Lines 244-269, when they succeed: one link per tag was added, each from
    the question to the tag a lookup of the name finds; tag rows were only
    added, each named as one of the tags; and no two tags of the list are
    the same name. *)
Lemma link_tags_done questionID names :
  forall c c',
    link_tags E fp questionID names c = (None, c') ->
    questions (store c') = questions (store c) /\
    tags_added names (store c) (store c') /\
    links_added E questionID names (store c) (store c') /\
    NoDup (map (collation_key E) names).
Proof.
  induction names as [|tag rest IH]; intros c c'; cbn [link_tags].
  - intros H. injection H as <-.
    split; [reflexivity |]. split.
    + exists []. split; [now rewrite app_nil_r | constructor].
    + split; [|constructor].
      exists []. split; [now rewrite app_nil_r |].
      split; [reflexivity |]. split; [constructor |].
      split; intros ? [].
  - destruct (tag_id_for E fp tag c) as [[msg|tagID] c1] eqn:H1; [discriminate |].
    apply tag_id_for_done in H1
      as (Hq1 & Hl1 & [ts1 [Ht1 Hn1]] & [row1 [Hf1 Hid1]]).
    destruct (insert_link fp questionID tagID c1) as [[e|] c2] eqn:H2;
      [discriminate |].
    apply insert_link_done in H2 as (Hq2 & Ht2 & Hl2 & Hfree).
    intros H3. apply IH in H3
      as (Hq3 & [ts3 [Ht3 Hn3]] & [ls3 (Hl3 & Hlen & Hnd & Hnew & Hcov)] & Hkeys).
    assert (Hrow1 : find_tag E (store c') tag = Some row1).
    { eapply find_tag_stable; [|exact Hf1]. rewrite Ht3, Ht2. reflexivity. }
    assert (Hfresh : ~ In (mkLink questionID tagID) ls3).
    { intros Hin. apply Hnew in Hin as [_ Hin]. apply Hin.
      rewrite Hl2. apply in_app_iff. right. now left. }
    split; [congruence |]. split; [|split].
    + exists (ts1 ++ ts3)%list. split.
      * now rewrite Ht3, Ht2, Ht1, app_assoc.
      * apply Forall_app. split.
        -- eapply Forall_impl; [|exact Hn1]. intros t ->. now left.
        -- eapply Forall_impl; [|exact Hn3]. intros t Ht. now right.
    + exists (mkLink questionID tagID :: ls3). split; [|split; [|split; [|split]]].
      * rewrite Hl3, Hl2, Hl1, <- app_assoc. reflexivity.
      * simpl. now rewrite Hlen.
      * now constructor.
      * intros l [<- | Hin].
        -- split; [reflexivity | now rewrite <- Hl1].
        -- destruct (Hnew l Hin) as [Hid Hnot]. split; [assumption |].
           intros Hold. apply Hnot. rewrite Hl2, Hl1.
           apply in_app_iff. now left.
      * intros t [<- | Hin].
        -- exists row1. split; [assumption | left; now rewrite Hid1].
        -- destruct (Hcov t Hin) as [row [Hf Hl]]. exists row.
           split; [assumption | now right].
    + cbn [map]. constructor; [|assumption].
      intros Hin. apply in_map_iff in Hin as [r [Hkey Hr]].
      destruct (Hcov r Hr) as [row [Hf Hl]].
      assert (Hsame : same_name E r tag = true) by now apply same_name_key.
      rewrite (find_tag_same_name E _ _ _ Hsame), Hrow1 in Hf.
      injection Hf as <-. rewrite Hid1 in Hl. contradiction.
Qed.

(** [AddQuestion], when it succeeds: the question row was added under the
    next id, which no stored question had; tags and links were added as the
    loop adds them; the transaction is closed. *)
Lemma AddQuestion_done q c c' :
  AddQuestion E fp q c = (None, c') ->
  questions (store c')
  = (questions (store c) ++
     [mkQuestionRow (next_question_id (counters c)) (Language q) (Type_ q) (Task q)])%list /\
  has_question (store c) (next_question_id (counters c)) = false /\
  tags_added (elems (Tags q)) (store c) (store c') /\
  links_added E (next_question_id (counters c)) (elems (Tags q))
    (store c) (store c') /\
  NoDup (map (collation_key E) (elems (Tags q))) /\
  snapshot c' = None.
Proof.
  unfold AddQuestion, Begin.
  destruct (attempt fp CBegin None c) as [[e|] c0] eqn:H0; [discriminate |].
  apply attempt_done in H0 as (_ & Hs0 & _ & Hn0).
  unfold insert_question. cbn [counters store].
  destruct (attempt fp CInsertQuestion _ _) as [[e|] c1] eqn:H1; [discriminate |].
  apply attempt_done in H1 as (Hfree & Hs1 & _ & Hn1).
  cbn [store counters] in Hfree, Hs1, Hn1.
  unfold LastInsertId.
  destruct (attempt fp CQuestionId None _) as [[e|] c2] eqn:H2; [discriminate |].
  apply attempt_done in H2 as (_ & Hs2 & _ & _).
  cbn [store with_counters with_store] in Hs2.
  destruct (link_tags E fp _ (elems (Tags q)) c2) as [[msg|] c3] eqn:H3;
    [discriminate |].
  apply link_tags_done in H3 as (Hq3 & Ht3 & Hl3 & Hkeys).
  rewrite Hs2 in Hq3, Ht3, Hl3. cbn [questions] in Hq3.
  unfold Commit.
  destruct (attempt fp CCommit None c3) as [[e|] c4] eqn:H4; [discriminate |].
  apply attempt_done in H4 as (_ & Hs4 & _ & _).
  intros H. injection H as <-. cbn [store snapshot]. rewrite Hs4.
  rewrite Hs1, Hs0 in *. rewrite Hn0 in *.
  split; [exact Hq3 |]. split.
  { destruct (has_question (store c) (next_question_id (counters c)));
      [discriminate | reflexivity]. }
  split; [|split; [|split; [assumption | reflexivity]]].
  - destruct Ht3 as [ts [Ht Hn]]. exists ts. cbn [tags] in Ht. tauto.
  - destruct Hl3 as [ls Hl]. exists ls. cbn [question_tags] in Hl. exact Hl.
Qed.

End Effects.

Lemma has_question_false (s : storage) (id : Z) :
  has_question s id = false -> ~ In id (map q_id (questions s)).
Proof.
  unfold has_question. intros H Hin. apply in_map_iff in Hin as [q [Hid Hq]].
  assert (Ht : existsb (fun x => (q_id x =? id)%Z) (questions s) = true).
  { apply existsb_exists. exists q. split; [assumption | now apply Z.eqb_eq]. }
  congruence.
Qed.

(** X10. A successful [AddQuestion] only appends: the question table gains
    one row, with the language, type and task given, under an id no stored
    question had; the tag table gains rows named as tags of the question;
    the link table gains one link per tag of the question, each from the
    new question.  Every row stored before is still there, in place. *)
Theorem AddQuestion_appends E fp q c c' :
  AddQuestion E fp q c = (None, c') ->
  questions (store c')
  = (questions (store c) ++
     [mkQuestionRow (next_question_id (counters c)) (Language q) (Type_ q) (Task q)])%list /\
  ~ In (next_question_id (counters c)) (map q_id (questions (store c))) /\
  (exists ts,
     tags (store c') = (tags (store c) ++ ts)%list /\
     Forall (fun t => In (t_name t) (elems (Tags q))) ts) /\
  (exists ls,
     question_tags (store c') = (question_tags (store c) ++ ls)%list /\
     length ls = length (elems (Tags q)) /\
     Forall (fun l => qt_question_id l = next_question_id (counters c)) ls).
Proof.
  intros H. apply AddQuestion_done in H as (Hq & Hfresh & Ht & Hl & _ & _).
  split; [assumption |]. split; [now apply has_question_false |].
  split; [exact Ht |].
  destruct Hl as [ls (Hl & Hlen & _ & Hnew & _)]. exists ls.
  split; [assumption |]. split; [assumption |].
  apply Forall_forall. intros l Hin. now apply Hnew.
Qed.

Lemma links_added_linked E id names s s' tag :
  links_added E id names s s' ->
  In tag names ->
  exists n, In n (linked_names s' id) /\ same_name E n tag = true.
Proof.
  intros [ls (Hl & _ & _ & _ & Hcov)] Htag.
  destruct (Hcov tag Htag) as [row [Hf Hin]].
  apply find_tag_found in Hf as [Hrow Hname].
  exists (t_name row). split; [|assumption].
  unfold linked_names, links_of. apply in_flat_map.
  exists (mkLink id (t_id row)). split.
  - apply filter_In. split; [|apply Z.eqb_refl].
    rewrite Hl. apply in_app_iff. now right.
  - unfold names_of_link. apply in_map. apply filter_In.
    split; [assumption | apply Z.eqb_refl].
Qed.

(** X11. After a successful [AddQuestion] the new question is linked, for
    every tag of its list, to a stored tag of that name: the tag found by
    the lookup, or the tag created when the lookup found none. *)
Theorem AddQuestion_links_every_tag E fp q c c' tag :
  AddQuestion E fp q c = (None, c') ->
  In tag (elems (Tags q)) ->
  exists n,
    In n (linked_names (store c') (next_question_id (counters c))) /\
    same_name E n tag = true.
Proof.
  intros H Htag. apply AddQuestion_done in H as (_ & _ & _ & Hl & _ & _).
  eapply links_added_linked; eassumption.
Qed.

(** X12. [AddQuestion] with a tag list that names a tag twice never
    succeeds: the second link of the pair is refused by the primary key of
    [question_tags], the transaction is rolled back, and the tables are
    left as they were. *)
Theorem AddQuestion_refuses_repeated_tag E fp q c :
  ~ NoDup (map (collation_key E) (elems (Tags q))) ->
  exists msg,
    fst (AddQuestion E fp q c) = Some msg /\
    store (snd (AddQuestion E fp q c)) = store c.
Proof.
  intros Hdup. pose proof (AddQuestion_spec E fp q c) as Hspec.
  destruct (AddQuestion E fp q c) as [[msg|] c'] eqn:Hrun.
  - exists msg. simpl. split; [reflexivity | apply Hspec].
  - apply AddQuestion_done in Hrun as (_ & _ & _ & _ & Hkeys & _).
    contradiction.
Qed.

(** ** The keys of the schema *)

Lemma has_tag_id_false (s : storage) (id : Z) :
  has_tag_id s id = false -> ~ In id (map t_id (tags s)).
Proof.
  unfold has_tag_id. intros H Hin. apply in_map_iff in Hin as [t [Hid Ht]].
  assert (Hex : existsb (fun x => (t_id x =? id)%Z) (tags s) = true).
  { apply existsb_exists. exists t. split; [assumption | now apply Z.eqb_eq]. }
  congruence.
Qed.

Lemma find_tag_none E (s : storage) (name : string) :
  find_tag E s name = None ->
  ~ In (collation_key E name)
      (map (fun t => collation_key E (t_name t)) (tags s)).
Proof.
  unfold find_tag. intros H Hin. apply in_map_iff in Hin as [t [Hkey Ht]].
  pose proof (find_none _ _ H t Ht) as Hno. cbv beta in Hno.
  assert (Hyes : same_name E (t_name t) name = true) by now apply same_name_key.
  congruence.
Qed.

Lemma tag_id_for_keys E fp tag c tagID c' :
  tag_id_for E fp tag c = (inr tagID, c') ->
  tag_keys_hold E (store c) -> tag_keys_hold E (store c').
Proof.
  unfold tag_id_for, select_tag_id.
  destruct (attempt fp (CSelectTag tag) None c) as [[e|] c1] eqn:H1;
    [discriminate |].
  apply attempt_done in H1 as (_ & Hs1 & _ & _).
  destruct (find_tag E (store c1) tag) as [row|] eqn:Hfind; cbn [option_map].
  - intros H. injection H as _ <-. now rewrite Hs1.
  - unfold insert_tag.
    destruct (attempt fp (CInsertTag tag) _ c1) as [[e|] c2] eqn:H2;
      [discriminate |].
    apply attempt_done in H2 as (Hfree & Hs2 & _ & _).
    unfold LastInsertId.
    destruct (attempt fp CTagId None _) as [[e|] c3] eqn:H3; [discriminate |].
    apply attempt_done in H3 as (_ & Hs3 & _ & _).
    cbn [store with_counters with_store] in Hs3.
    intros H. injection H as _ <-. rewrite Hs3, Hs2.
    rewrite Hfind, orb_false_r in Hfree.
    destruct (has_tag_id (store c1) (next_tag_id (counters c1))) eqn:Hid;
      [discriminate |].
    apply has_tag_id_false in Hid. apply find_tag_none in Hfind.
    rewrite <- Hs1. intros [Hids Hnames].
    unfold tag_keys_hold. cbn [tags]. rewrite !map_app. cbn [map t_id t_name].
    split; apply NoDup_snoc; assumption.
Qed.

Lemma link_tags_keys E fp questionID names :
  forall c c',
    link_tags E fp questionID names c = (None, c') ->
    tag_keys_hold E (store c) -> tag_keys_hold E (store c').
Proof.
  induction names as [|tag rest IH]; intros c c'; cbn [link_tags].
  - intros H. now injection H as <-.
  - destruct (tag_id_for E fp tag c) as [[msg|tagID] c1] eqn:H1; [discriminate |].
    destruct (insert_link fp questionID tagID c1) as [[e|] c2] eqn:H2;
      [discriminate |].
    apply insert_link_done in H2 as (_ & Ht2 & _ & _).
    intros H3 Hk. apply (IH _ _ H3).
    apply (tag_id_for_keys _ _ _ _ _ _ H1) in Hk.
    unfold tag_keys_hold in *. now rewrite Ht2.
Qed.

Lemma AddQuestion_tag_keys E fp q c c' :
  AddQuestion E fp q c = (None, c') ->
  tag_keys_hold E (store c) -> tag_keys_hold E (store c').
Proof.
  unfold AddQuestion, Begin.
  destruct (attempt fp CBegin None c) as [[e|] c0] eqn:H0; [discriminate |].
  apply attempt_done in H0 as (_ & Hs0 & _ & _).
  unfold insert_question. cbn [counters store].
  destruct (attempt fp CInsertQuestion _ _) as [[e|] c1] eqn:H1; [discriminate |].
  apply attempt_done in H1 as (_ & Hs1 & _ & _).
  cbn [store] in Hs1.
  unfold LastInsertId.
  destruct (attempt fp CQuestionId None _) as [[e|] c2] eqn:H2; [discriminate |].
  apply attempt_done in H2 as (_ & Hs2 & _ & _).
  cbn [store with_counters with_store] in Hs2.
  destruct (link_tags E fp _ (elems (Tags q)) c2) as [[msg|] c3] eqn:H3;
    [discriminate |].
  unfold Commit.
  destruct (attempt fp CCommit None c3) as [[e|] c4] eqn:H4; [discriminate |].
  apply attempt_done in H4 as (_ & Hs4 & _ & _).
  intros H Hk. injection H as <-. cbn [store]. rewrite Hs4.
  apply (link_tags_keys _ _ _ _ _ _ H3).
  unfold tag_keys_hold in *. rewrite Hs2. cbn [tags]. now rewrite Hs1, Hs0.
Qed.

(** X13. [AddQuestion] keeps the keys of the schema, whether it succeeds or
    not: question ids stay distinct, tag ids stay distinct, tag names stay
    distinct (a tag is created only when the lookup found none of that
    name), and links stay distinct. *)
Theorem AddQuestion_keeps_keys E fp q c :
  keys_hold E (store c) ->
  keys_hold E (store (snd (AddQuestion E fp q c))).
Proof.
  intros (Hq & Ht & Hl).
  pose proof (AddQuestion_spec E fp q c) as Hspec.
  destruct (AddQuestion E fp q c) as [[msg|] c'] eqn:Hrun; cbn [snd].
  - destruct Hspec as [[Hst _] _]. rewrite Hst. now split.
  - split; [|split].
    + apply AddQuestion_done in Hrun as (Hq' & Hfresh & _).
      rewrite Hq', map_app. cbn [map q_id].
      apply NoDup_snoc; [assumption | now apply has_question_false].
    + eapply AddQuestion_tag_keys; eassumption.
    + now apply Hspec.
Qed.

(** ** Writing, then reading *)

(** A row selected for a question whose id no other stored question has
    comes back as that question. *)
Lemma fresh_row_returned E (s s' : storage) (new : question_row)
    (b : bound_statement) (o : option string) :
  questions s' = (questions s ++ [new])%list ->
  ~ In (q_id new) (map q_id (questions s)) ->
  In (new, o) (selected E s' b) ->
  exists r,
    In r (evaluate E s' b) /\
    ID (scan r) = q_id new /\ Language (scan r) = q_language new /\
    Type_ (scan r) = q_type new /\ Task (scan r) = q_task new.
Proof.
  intros Hqs Hfresh Hsel.
  assert (Hid : In (q_id new) (map c_id (group_by_id (selected E s' b))))
    by (apply group_by_id_ids; exists (new, o); tauto).
  apply in_map_iff in Hid as [r [Hid Hr]].
  exists r. split; [now rewrite evaluate_selected |].
  destruct (in_group_by_id _ _ Hr) as [row [n [rest [Hg Heq]]]].
  assert (Hrow : In (row, n) (selected E s' b) /\ q_id row = c_id r).
  { assert (Hin : In (row, n)
        (filter (fun x : joined => (q_id (fst x) =? c_id r)%Z) (selected E s' b)))
      by (rewrite Hg; now left).
    apply filter_In in Hin as [Hin Hq]. now apply Z.eqb_eq in Hq. }
  destruct Hrow as [Hrow Hq].
  apply in_selected in Hrow as [Hfrom _].
  apply in_from_rows_question in Hfrom. simpl in Hfrom.
  rewrite Hqs in Hfrom. apply in_app_iff in Hfrom as [Hold | [<- | []]].
  - exfalso. apply Hfresh. rewrite <- Hid, <- Hq. now apply in_map.
  - subst r. simpl. tauto.
Qed.

(** X14. After a successful [AddQuestion], a read outside ALL mode whose
    language and type filters the new question passes and whose tag list is
    empty or names one of its tags returns the new question, under its new
    id and with the language, type and task given, provided the read
    succeeds and its connection is not lost. *)
Theorem AddQuestion_then_GetQuestions
    E fp q c c' fl language qType tags config qs :
  AddQuestion E fp q c = (None, c') ->
  tags = [] \/ match_all config = false ->
  passes E language qType
    (mkQuestionRow (next_question_id (counters c)) (Language q) (Type_ q) (Task q))
  = true ->
  (tags = [] \/
   exists tag t, In tag tags /\ In t (elems (Tags q)) /\ same_name E t tag = true) ->
  lost_after fl = None ->
  GetQuestions E fl (store c') language qType tags config = Ok qs ->
  exists q',
    In q' (elems qs) /\ ID q' = next_question_id (counters c) /\
    Language q' = Language q /\ Type_ q' = Type_ q /\ Task q' = Task q.
Proof.
  intros Hadd Hmode Hpass Htags Hlost Hok.
  pose proof (AddQuestion_done _ _ _ _ _ Hadd) as (Hq & Hfresh & _ & Hl & _ & _).
  apply has_question_false in Hfresh.
  set (new := mkQuestionRow (next_question_id (counters c)) (Language q)
                (Type_ q) (Task q)) in *.
  assert (Hnew : In new (questions (store c')))
    by (rewrite Hq; apply in_app_iff; right; now left).
  destruct (GetQuestions_complete _ _ _ _ _ _ _ _ Hlost Hok) as [b [Hb Hqs]].
  rewrite (bind_unmatched _ _ _ _ Hmode) in Hb. injection Hb as <-.
  assert (Hsel : exists o,
    In (new, o)
      (selected E (store c')
         (mkBound None
            ((if nonempty language then [BLanguage (AString language)] else []) ++
             (if nonempty qType then [BType (AString qType)] else []) ++
             match tags with
             | [] => []
             | _ => [BTagIn (map AString tags)]
             end)%list))).
  { destruct Htags as [Hnil | [tag [t [Htag [Ht Hsame]]]]].
    - destruct (join_question_not_nil (store c') new) as [o Ho].
      exists o. apply in_selected_unmatched. split; [|tauto].
      unfold from_rows. apply in_flat_map. eauto.
    - destruct (links_added_linked _ _ _ _ _ _ Hl Ht) as [n [Hn Hnt]].
      exists (Some n). apply in_selected_unmatched. split.
      + apply in_from_rows_name. tauto.
      + split; [assumption |]. right. exists n. split; [reflexivity |].
        apply name_in_tags. exists tag. split; [assumption |].
        eapply same_name_trans; eassumption. }
  destruct Hsel as [o Hsel].
  destruct (fresh_row_returned _ _ _ _ _ _ Hq Hfresh Hsel) as [r [Hr Hfields]].
  exists (scan r). split; [|exact Hfields].
  rewrite Hqs. now apply in_map.
Qed.

(** X15. After a successful [AddQuestion] with at least one tag, the read in
    ALL mode with the question's own tag list and no language and type
    filter returns the new question, provided the read succeeds and its
    connection is not lost. *)
Theorem AddQuestion_then_GetQuestions_all E fp q c c' fl config qs :
  AddQuestion E fp q c = (None, c') ->
  elems (Tags q) <> [] ->
  match_all config = true ->
  lost_after fl = None ->
  GetQuestions E fl (store c') "" "" (elems (Tags q)) config = Ok qs ->
  exists q',
    In q' (elems qs) /\ ID q' = next_question_id (counters c) /\
    Language q' = Language q /\ Type_ q' = Type_ q /\ Task q' = Task q.
Proof.
  intros Hadd Hne Hall Hlost Hok.
  pose proof (AddQuestion_done _ _ _ _ _ Hadd) as (Hq & Hfresh & _ & Hl & Hkeys & _).
  apply has_question_false in Hfresh.
  set (new := mkQuestionRow (next_question_id (counters c)) (Language q)
                (Type_ q) (Task q)) in *.
  destruct (GetQuestions_complete _ _ _ _ _ _ _ _ Hlost Hok) as [b [Hb Hqs]].
  rewrite bind_all in Hb by assumption. injection Hb as <-.
  destruct (join_question_not_nil (store c') new) as [o Ho].
  assert (Hsel : In (new, o)
    (selected E (store c')
       (mkBound
          (Some (map AString (elems (Tags q)),
                 AInt (Z.of_nat (length (elems (Tags q)))))) []))).
  { apply in_selected. cbn [bs_matching bs_where forallb fst]. split3.
    - unfold from_rows. apply in_flat_map. exists new. split; [|assumption].
      rewrite Hq. apply in_app_iff. right. now left.
    - apply (in_matching_tags E (store c') (elems (Tags q)) _ Hne Hkeys).
      intros tag Htag. eapply links_added_linked; eassumption.
    - reflexivity. }
  destruct (fresh_row_returned _ _ _ _ _ _ Hq Hfresh Hsel) as [r [Hr Hfields]].
  exists (scan r). split; [|exact Hfields].
  rewrite Hqs. now apply in_map.
Qed.

(** ** Reading the tags *)

Lemma scan_names_firstn (fl : faults) (ns : list string) :
  forall j k acc ts,
    scan_names
      (firstn j
         (map (fun ir : nat * string =>
                 match scan_fails fl (fst ir) with
                 | Some e => UndecodableName e
                 | None => FetchedName (snd ir)
                 end)
            (combine (seq k (length ns)) ns))) acc = Ok ts ->
    elems ts = (elems acc ++ firstn j ns)%list.
Proof.
  induction ns as [|n ns IH]; intros j k acc ts.
  - destruct j; simpl; intros H; injection H as <-; now rewrite app_nil_r.
  - destruct j as [|j]; simpl.
    + intros H. injection H as <-. now rewrite app_nil_r.
    + destruct (scan_fails fl k); [discriminate |].
      intros H. rewrite (IH _ _ _ _ H). simpl. now rewrite <- app_assoc.
Qed.

Lemma deliver_names_scanned (fl : faults) (ns : list string) (ts : slice string) :
  scan_names (names_pending (deliver_names fl ns)) nil_slice = Ok ts ->
  exists rest,
    ns = (elems ts ++ rest)%list /\
    (lost_after fl = None -> rest = []).
Proof.
  assert (Hall : forall acc ts',
    scan_names
      (map (fun ir : nat * string =>
              match scan_fails fl (fst ir) with
              | Some e => UndecodableName e
              | None => FetchedName (snd ir)
              end) (combine (seq 0 (length ns)) ns)) acc = Ok ts' ->
    elems ts' = (elems acc ++ ns)%list).
  { intros acc ts' H.
    rewrite <- (firstn_all (map _ (combine (seq 0 (length ns)) ns))) in H.
    apply scan_names_firstn in H.
    rewrite H, length_map, length_combine, length_seq, Nat.min_id.
    now rewrite firstn_all. }
  unfold deliver_names.
  destruct (lost_after fl) as [[k e]|];
    [destruct (k <? length ns)%nat |]; cbn [names_pending]; intros H.
  - apply scan_names_firstn in H. simpl in H.
    exists (skipn k ns). split; [|discriminate].
    now rewrite H, firstn_skipn.
  - apply Hall in H. simpl in H. exists []. now rewrite H, app_nil_r.
  - apply Hall in H. simpl in H. exists []. now rewrite H, app_nil_r.
Qed.

(** X16. A successful [GetTags] returns the first names of the tag table,
    in the order of the table, and all of them unless the connection was
    lost on the way: it returns no name that is not stored. *)
Theorem GetTags_prefix_of_stored (fl : faults) (db : storage) (ts : slice string) :
  GetTags fl db = Ok ts ->
  exists rest,
    map t_name (tags db) = (elems ts ++ rest)%list /\
    (lost_after fl = None -> rest = []).
Proof.
  unfold GetTags, QueryNames.
  destruct (query_fails fl); [discriminate |].
  cbn [String.eqb Ascii.eqb Bool.eqb].
  apply deliver_names_scanned.
Qed.

(** X17. After a successful [AddQuestion], a successful [GetTags] whose
    connection is not lost returns, for every tag of the new question, a
    name equal to it (the name stored before, or the name just created), and
    still returns every name stored before. *)
Theorem AddQuestion_then_GetTags E fp q c c' fl ts :
  AddQuestion E fp q c = (None, c') ->
  lost_after fl = None ->
  GetTags fl (store c') = Ok ts ->
  (forall tag, In tag (elems (Tags q)) ->
     exists n, In n (elems ts) /\ same_name E n tag = true) /\
  (forall n, In n (map t_name (tags (store c))) -> In n (elems ts)).
Proof.
  intros Hadd Hlost Hok.
  unfold GetTags, QueryNames in Hok.
  destruct (query_fails fl); [discriminate |].
  cbn [String.eqb Ascii.eqb Bool.eqb] in Hok.
  apply deliver_names_scanned in Hok as [rest [Hnames Hrest]].
  rewrite (Hrest Hlost), app_nil_r in Hnames.
  apply AddQuestion_done in Hadd as (_ & _ & [new [Ht _]] & [ls Hl] & _ & _).
  split.
  - intros tag Htag. destruct Hl as (_ & _ & _ & _ & Hcov).
    destruct (Hcov tag Htag) as [row [Hf _]].
    apply find_tag_found in Hf as [Hrow Hsame].
    exists (t_name row). split; [|assumption].
    rewrite <- Hnames. now apply in_map.
  - intros n Hn. rewrite <- Hnames, Ht, map_app. apply in_app_iff. now left.
Qed.

(** ** Connecting *)

Lemma retry_failing (d : dialing) (dsn : string) (rounds : nat) :
  forall i db err w,
    (forall j, (i <= j < i + rounds)%nat -> attempt_error d dsn j <> None) ->
    (0 < rounds)%nat ->
    exists db' e,
      retry d dsn i rounds db err w
      = (db', Some e,
         mkWaited (logged w ++ failure_lines d dsn i rounds)
           (slept w + rounds)) /\
      attempt_error d dsn (i + rounds - 1) = Some e.
Proof.
  induction rounds as [|rounds IH]; intros i db err w Hfail Hpos; [lia |].
  cbn [retry]. fold (attempt_error d dsn i).
  destruct (attempt_error d dsn i) as [e|] eqn:Hi;
    [|exfalso; apply (Hfail i); [lia | assumption]].
  destruct rounds as [|rounds].
  - cbn [retry]. eexists _, e. split.
    + unfold failure_lines. cbn [seq map]. rewrite Hi.
      now rewrite Nat.add_1_r.
    + now replace (i + 1 - 1)%nat with i by lia.
  - destruct (IH (S i)
               (match open_fails d dsn i with Some _ => None | None => Some i end)
               (Some e)
               (mkWaited (logged w ++ [(S i, e)]) (S (slept w))))
      as [db' [e' [Hrun Hlast]]]; [intros j Hj; apply Hfail; lia | lia |].
    exists db', e'. split.
    + rewrite Hrun. cbn [logged slept]. f_equal. f_equal.
      * rewrite <- app_assoc. f_equal.
        unfold failure_lines. cbn [seq map]. now rewrite Hi.
      * lia.
    + now replace (i + S (S rounds) - 1)%nat with (S i + S rounds - 1)%nat by lia.
Qed.

Lemma retry_connecting (d : dialing) (dsn : string) (k : nat) :
  forall rounds i db err w,
    (k < rounds)%nat ->
    attempt_error d dsn (i + k) = None ->
    (forall j, (i <= j < i + k)%nat -> attempt_error d dsn j <> None) ->
    retry d dsn i rounds db err w
    = (Some (i + k)%nat, None,
       mkWaited (logged w ++ failure_lines d dsn i k) (slept w + k)).
Proof.
  induction k as [|k IH]; intros rounds i db err w Hk Hok Hfail;
    (destruct rounds as [|rounds]; [lia |]); cbn [retry];
    fold (attempt_error d dsn i).
  - rewrite Nat.add_0_r in Hok. rewrite Hok.
    unfold attempt_error in Hok.
    destruct (open_fails d dsn i); [discriminate |].
    unfold failure_lines. cbn [seq map].
    rewrite app_nil_r, !Nat.add_0_r. now destruct w.
  - destruct (attempt_error d dsn i) as [e|] eqn:Hi;
      [|exfalso; apply (Hfail i); [lia | assumption]].
    rewrite (IH rounds (S i)); [| lia | now rewrite Nat.add_succ_comm | ].
    + f_equal; [f_equal; f_equal; lia |].
      cbn [logged slept]. f_equal.
      * rewrite <- app_assoc. f_equal.
        unfold failure_lines. cbn [seq map]. now rewrite Hi.
      * lia.
    + intros j Hj. apply Hfail. lia.
Qed.

(** X18. [NewDatabase] returns the handle of the first attempt, among the
    ten it makes, at which both [sql.Open] and [db.Ping] succeed; before
    that it has logged one line and slept once for each failed attempt, and
    it makes no further attempt. *)
Theorem NewDatabase_first_success (d : dialing) (getenv : string -> string)
    (i : nat) :
  (i < 10)%nat ->
  attempt_error d (data_source getenv) i = None ->
  (forall j, (j < i)%nat -> attempt_error d (data_source getenv) j <> None) ->
  NewDatabase d getenv
  = (inr (mkDatabase (Some i)),
     mkWaited (failure_lines d (data_source getenv) 0 i) i).
Proof.
  intros Hi Hok Hfail. unfold NewDatabase.
  rewrite (retry_connecting d (data_source getenv) i);
    [reflexivity | assumption | assumption |].
  intros j Hj. apply Hfail. lia.
Qed.

(** X19. When all ten attempts fail, [NewDatabase] returns the error of the
    tenth in its message and no handle, after ten logged lines and ten
    sleeps (it sleeps after the last failure too). *)
Theorem NewDatabase_gives_up (d : dialing) (getenv : string -> string) :
  (forall j, (j < 10)%nat -> attempt_error d (data_source getenv) j <> None) ->
  exists e,
    attempt_error d (data_source getenv) 9 = Some e /\
    NewDatabase d getenv
    = (inl ("failed to connect to database after 10 attempts: " ++ e),
       mkWaited (failure_lines d (data_source getenv) 0 10) 10).
Proof.
  intros Hfail. unfold NewDatabase.
  destruct (retry_failing d (data_source getenv) 10 0 None None (mkWaited [] 0))
    as [db' [e [Hrun Hlast]]]; [intros j Hj; apply Hfail; lia | lia |].
  exists e. split; [exact Hlast |]. now rewrite Hrun.
Qed.

(** ** When a write succeeds *)

Section Progress.

Variable E : engine.
Variable fp : plan.
Hypothesis no_failure : forall n, fp n = None.

Lemma attempt_answer k refused c :
  attempt fp k refused c
  = (refused,
     mkConnection (store c) (snapshot c) (counters c) (S (clock c))
       (journal c ++ [(k, refused)])).
Proof. unfold attempt. now rewrite no_failure. Qed.

Lemma has_tag_id_ahead (c : connection) :
  (forall t, In t (tags (store c)) -> (t_id t < next_tag_id (counters c))%Z) ->
  has_tag_id (store c) (next_tag_id (counters c)) = false.
Proof.
  intros Hahead. unfold has_tag_id.
  destruct (existsb _ _) eqn:Hex; [|reflexivity].
  apply existsb_exists in Hex as [t [Ht Heq]]. apply Z.eqb_eq in Heq.
  specialize (Hahead t Ht). lia.
Qed.

(** Lines 245-261 succeed, and keep the tag ids distinct and below the
    counter. *)
Lemma tag_id_for_succeeds tag c :
  tag_ids_ahead c ->
  exists tagID c',
    tag_id_for E fp tag c = (inr tagID, c') /\
    tag_ids_ahead c' /\
    next_question_id (counters c') = next_question_id (counters c).
Proof.
  intros [Hnd Hahead]. unfold tag_id_for, select_tag_id.
  rewrite attempt_answer. cbn [store].
  destruct (find_tag E (store c) tag) as [row|] eqn:Hfind; cbn [option_map].
  - eexists _, _. split; [reflexivity |].
    split; [split; assumption | reflexivity].
  - unfold insert_tag. cbn [store counters].
    rewrite Hfind, (has_tag_id_ahead c Hahead). cbn [orb].
    rewrite attempt_answer. unfold LastInsertId. rewrite attempt_answer.
    eexists _, _. split; [reflexivity |].
    unfold tag_ids_ahead.
    cbn [store counters with_store with_counters tags next_tag_id next_question_id].
    split; [|reflexivity]. split.
    + rewrite map_app. cbn [map t_id]. apply NoDup_snoc; [assumption |].
      intros Hin. apply in_map_iff in Hin as [t [Hid Ht]].
      specialize (Hahead t Ht). lia.
    + intros t Ht. apply in_app_iff in Ht as [Ht | [<- | []]].
      * specialize (Hahead t Ht). lia.
      * cbn [t_id]. lia.
Qed.

Lemma has_link_true (s : storage) (l : link_row) :
  has_link s l = true -> In l (question_tags s).
Proof.
  unfold has_link. intros H. apply existsb_exists in H as [l' [Hin Heq]].
  apply same_link_eq in Heq. now subst.
Qed.

Lemma tag_id_unique (s : storage) (a b : tag_row) :
  NoDup (map t_id (tags s)) ->
  In a (tags s) -> In b (tags s) -> t_id a = t_id b -> a = b.
Proof.
  induction (tags s) as [|t ts IH]; intros Hnd Ha Hb Hid; [destruct Ha |].
  cbn [map] in Hnd. inversion Hnd as [|? ? Hnot Hnd']; subst.
  destruct Ha as [-> | Ha], Hb as [-> | Hb].
  - reflexivity.
  - exfalso. apply Hnot. rewrite Hid. now apply in_map.
  - exfalso. apply Hnot. rewrite <- Hid. now apply in_map.
  - now apply IH.
Qed.

(** Lines 244-269 succeed when the names of the list are distinct and the
    question has no link yet to a tag of one of these names. *)
Lemma link_tags_succeeds questionID names :
  forall c,
    tag_ids_ahead c ->
    NoDup (map (collation_key E) names) ->
    links_apart E questionID names (store c) ->
    exists c', link_tags E fp questionID names c = (None, c').
Proof.
  induction names as [|tag rest IH]; intros c Hids Hnames Hapart;
    cbn [link_tags]; [eauto |].
  destruct (tag_id_for_succeeds tag c Hids) as [tagID [c1 [H1 [Hids1 _]]]].
  rewrite H1.
  apply tag_id_for_done in H1
    as (_ & Hl1 & [ts1 [Ht1 _]] & [row1 [Hf1 Hid1]]).
  apply find_tag_found in Hf1 as [Hrow1 Hname1].
  apply same_name_key in Hname1.
  cbn [map] in Hnames. inversion Hnames as [|? ? Hnot Hrest]; subst.
  assert (Hfree : has_link (store c1) (mkLink questionID (t_id row1)) = false).
  { destruct (has_link _ _) eqn:Hhas; [|reflexivity]. exfalso.
    apply has_link_true in Hhas. rewrite Hl1 in Hhas.
    destruct (Hapart _ Hhas eq_refl) as [row [Hrow [Hid Hkey]]].
    cbn [qt_tag_id] in Hid.
    assert (Heq : row = row1).
    { apply (tag_id_unique (store c1)); [apply Hids1 | | assumption | assumption].
      rewrite Ht1. apply in_app_iff. now left. }
    subst row. apply Hkey. rewrite Hname1. now left. }
  unfold insert_link at 1. rewrite Hfree, attempt_answer.
  cbn [store with_store].
  apply IH.
  - destruct Hids1 as [Hnd1 Hah1]. split; assumption.
  - assumption.
  - intros l Hl Hq. cbn [store question_tags tags] in *.
    apply in_app_iff in Hl as [Hl | [<- | []]].
    + rewrite Hl1 in Hl.
      destruct (Hapart l Hl Hq) as [row [Hrow [Hid Hkey]]].
      exists row. split; [rewrite Ht1; apply in_app_iff; now left |].
      split; [assumption |]. intros Hin. apply Hkey. now right.
    + exists row1. split; [assumption |]. split; [reflexivity |].
      now rewrite Hname1.
Qed.

(** X20. When no call fails, the counters are ahead of the ids, tag ids are
    distinct and the tags of the question are distinct names, [AddQuestion]
    succeeds. *)
Theorem AddQuestion_succeeds q c :
  counters_ahead c ->
  NoDup (map t_id (tags (store c))) ->
  NoDup (map (collation_key E) (elems (Tags q))) ->
  exists c', AddQuestion E fp q c = (None, c').
Proof.
  intros (Hfresh & Hlinks & Hahead) Hnd Hnames.
  unfold AddQuestion, Begin. rewrite attempt_answer.
  unfold insert_question. cbn [store counters].
  assert (Hno : has_question (store c) (next_question_id (counters c)) = false).
  { unfold has_question. destruct (existsb _ _) eqn:Hex; [|reflexivity].
    apply existsb_exists in Hex as [x [Hx Heq]]. apply Z.eqb_eq in Heq.
    exfalso. apply Hfresh. rewrite <- Heq. now apply in_map. }
  rewrite Hno, attempt_answer. unfold LastInsertId. rewrite attempt_answer.
  match goal with
  | |- context [link_tags E fp ?id ?names ?c2] =>
      destruct (link_tags_succeeds id names c2) as [c3 H3]
  end.
  - split; assumption.
  - assumption.
  - intros l Hl Hq. exfalso. now apply (Hlinks l Hl).
  - rewrite H3. unfold Commit. rewrite attempt_answer. eauto.
Qed.

End Progress.

(** ** Further instances *)

Lemma GetQuestions_fails_only_with_the_driver_witness :
  option_map (fun st => length (placeholders st))
    (parse_statement (fst (GetQuestions_query "en" "dare" ["18+"; "food"] ALL)))
  = Some (length (snd (GetQuestions_query "en" "dare" ["18+"; "food"] ALL))) /\
  exists qs,
    GetQuestions binary_collation lost_after_one init_sql "en" "dare"
      ["18+"; "food"] ALL = Ok qs.
Proof.
  apply (GetQuestions_fails_only_with_the_driver binary_collation lost_after_one
           init_sql "en" "dare" ["18+"; "food"] ALL).
  - reflexivity.
  - intros i. reflexivity.
Defined.

Lemma GetQuestions_query_template_witness :
  fst (GetQuestions_query "en" "dare" ["18+"; "food"] ALL)
  = fst (GetQuestions_query "x' OR 1=1 --" "?" ["a,b"; "); DROP TABLE tags"] ALL).
Proof.
  apply GetQuestions_query_template; reflexivity.
Defined.

Lemma GetQuestions_ids_distinct_witness :
  NoDup (map ID (elems (mk_slice [question_1; question_2; question_4]))).
Proof.
  apply (GetQuestions_ids_distinct binary_collation no_faults init_sql
           "" "" ["18+"; "alcohol"] ANY).
  vm_compute. reflexivity.
Defined.

Lemma GetQuestions_returns_stored_questions_witness :
  exists row,
    In row (questions init_sql) /\
    ID question_2_matched = q_id row /\ Language question_2_matched = q_language row /\
    Type_ question_2_matched = q_type row /\ Task question_2_matched = q_task row /\
    (["alcohol"] = [] \/ match_all ANY = false ->
     passes binary_collation "en" "" row = true).
Proof.
  apply (GetQuestions_returns_stored_questions binary_collation no_faults
           init_sql "en" "" ["alcohol"] ANY (mk_slice [question_2_matched])).
  - vm_compute. reflexivity.
  - left. reflexivity.
Defined.

Lemma GetQuestions_any_mode_exact_witness :
  In 3%Z (map ID (elems (mk_slice [question_3]))) <->
  exists row,
    In row (questions init_sql) /\ q_id row = 3%Z /\
    passes binary_collation "de" "" row = true /\
    (["food"; "alcohol"] = [] \/
     exists tag n, In tag ["food"; "alcohol"] /\ In n (linked_names init_sql 3) /\
                   same_name binary_collation n tag = true).
Proof.
  apply (GetQuestions_any_mode_exact binary_collation no_faults init_sql
           "de" "" ["food"; "alcohol"] ANY (mk_slice [question_3])).
  - right. reflexivity.
  - reflexivity.
  - vm_compute. reflexivity.
Defined.

Lemma GetQuestions_prefix_of_complete_witness :
  exists qs0 rest,
    GetQuestions binary_collation no_faults init_sql "en" "" [] None = Ok qs0 /\
    elems qs0 = (elems (mk_slice [question_1]) ++ rest)%list /\
    (lost_after lost_after_one = None -> rest = []).
Proof.
  apply (GetQuestions_prefix_of_complete binary_collation lost_after_one init_sql
           "en" "" [] None (mk_slice [question_1])).
  vm_compute. reflexivity.
Defined.


Lemma new_question_added :
  AddQuestion binary_collation no_failures new_question fresh_connection
  = (None, after_new_question).
Proof. vm_compute. reflexivity. Defined.

Lemma AddQuestion_appends_witness :
  questions (store after_new_question)
  = (questions init_sql ++ [mkQuestionRow 5 "en" "truth" "New one"])%list /\
  ~ In 5%Z (map q_id (questions init_sql)) /\
  (exists ts,
     tags (store after_new_question) = (tags init_sql ++ ts)%list /\
     Forall (fun t => In (t_name t) ["newtag"; "18+"]) ts) /\
  (exists ls,
     question_tags (store after_new_question) = (question_tags init_sql ++ ls)%list /\
     length ls = 2%nat /\
     Forall (fun l => qt_question_id l = 5%Z) ls).
Proof.
  apply (AddQuestion_appends binary_collation no_failures new_question
           fresh_connection after_new_question).
  exact new_question_added.
Defined.

Lemma AddQuestion_links_every_tag_witness :
  exists n,
    In n (linked_names (store after_new_question) 5) /\
    same_name binary_collation n "18+" = true.
Proof.
  apply (AddQuestion_links_every_tag binary_collation no_failures new_question
           fresh_connection after_new_question "18+").
  - exact new_question_added.
  - right. left. reflexivity.
Defined.

Lemma AddQuestion_refuses_repeated_tag_witness :
  exists msg,
    fst (AddQuestion binary_collation no_failures twice_tagged fresh_connection)
    = Some msg /\
    store (snd (AddQuestion binary_collation no_failures twice_tagged
                  fresh_connection))
    = init_sql.
Proof.
  apply (AddQuestion_refuses_repeated_tag binary_collation no_failures
           twice_tagged fresh_connection).
  intros Hnd. inversion Hnd as [|? ? Hnot _]. apply Hnot. left. reflexivity.
Defined.

Lemma init_sql_keys_hold : keys_hold binary_collation init_sql.
Proof.
  repeat split;
    repeat (constructor; [simpl; intuition discriminate |]); constructor.
Defined.

Lemma AddQuestion_keeps_keys_witness :
  keys_hold binary_collation (store after_new_question).
Proof.
  apply (AddQuestion_keeps_keys binary_collation no_failures new_question
           fresh_connection).
  exact init_sql_keys_hold.
Defined.

Lemma AddQuestion_then_GetQuestions_witness :
  exists q',
    In q' (elems (mk_slice [question_new_matched])) /\ ID q' = 5%Z /\
    Language q' = "en" /\ Type_ q' = "truth" /\ Task q' = "New one".
Proof.
  apply (AddQuestion_then_GetQuestions binary_collation no_failures new_question
           fresh_connection after_new_question no_faults
           "en" "truth" ["newtag"] ANY (mk_slice [question_new_matched])).
  - exact new_question_added.
  - right. reflexivity.
  - reflexivity.
  - right. exists "newtag", "newtag".
    split; [left; reflexivity |]. split; [left; reflexivity | reflexivity].
  - reflexivity.
  - vm_compute. reflexivity.
Defined.

Lemma AddQuestion_then_GetQuestions_all_witness :
  exists q',
    In q' (elems (mk_slice [question_new])) /\ ID q' = 5%Z /\
    Language q' = "en" /\ Type_ q' = "truth" /\ Task q' = "New one".
Proof.
  apply (AddQuestion_then_GetQuestions_all binary_collation no_failures
           new_question fresh_connection after_new_question no_faults ALL
           (mk_slice [question_new])).
  - exact new_question_added.
  - discriminate.
  - reflexivity.
  - reflexivity.
  - vm_compute. reflexivity.
Defined.

Lemma GetTags_prefix_of_stored_witness :
  exists rest,
    map t_name (tags init_sql) = (elems (mk_slice ["18+"]) ++ rest)%list /\
    (lost_after lost_after_one = None -> rest = []).
Proof.
  apply (GetTags_prefix_of_stored lost_after_one init_sql (mk_slice ["18+"])).
  vm_compute. reflexivity.
Defined.

Lemma AddQuestion_then_GetTags_witness :
  (forall tag, In tag ["newtag"; "18+"] ->
     exists n, In n (elems (mk_slice ["18+"; "alcohol"; "food"; "newtag"])) /\
               same_name binary_collation n tag = true) /\
  (forall n, In n (map t_name (tags init_sql)) ->
     In n (elems (mk_slice ["18+"; "alcohol"; "food"; "newtag"]))).
Proof.
  apply (AddQuestion_then_GetTags binary_collation no_failures new_question
           fresh_connection after_new_question no_faults
           (mk_slice ["18+"; "alcohol"; "food"; "newtag"])).
  - exact new_question_added.
  - reflexivity.
  - vm_compute. reflexivity.
Defined.

Lemma NewDatabase_first_success_witness :
  NewDatabase up_at_third environment
  = (inr (mkDatabase (Some 2%nat)),
     mkWaited [(1%nat, "connection refused"); (2%nat, "connection refused")] 2).
Proof.
  apply (NewDatabase_first_success up_at_third environment 2).
  - lia.
  - reflexivity.
  - intros j Hj. destruct j as [|[|j]]; [discriminate | discriminate | lia].
Defined.

Lemma NewDatabase_gives_up_witness :
  exists e,
    attempt_error never_up (data_source environment) 9 = Some e /\
    NewDatabase never_up environment
    = (inl ("failed to connect to database after 10 attempts: " ++ e),
       mkWaited (failure_lines never_up (data_source environment) 0 10) 10).
Proof.
  apply (NewDatabase_gives_up never_up environment).
  intros j _. discriminate.
Defined.

Lemma AddQuestion_succeeds_witness :
  exists c',
    AddQuestion binary_collation no_failures new_question fresh_connection
    = (None, c').
Proof.
  apply (AddQuestion_succeeds binary_collation no_failures (fun _ => eq_refl)
           new_question fresh_connection).
  - split; [|split].
    + simpl. intuition discriminate.
    + intros l Hl. simpl in Hl.
      repeat (destruct Hl as [<- | Hl]; [discriminate |]). destruct Hl.
    + intros t Ht. simpl in Ht.
      repeat (destruct Ht as [<- | Ht]; [reflexivity |]). destruct Ht.
  - repeat (constructor; [simpl; intuition discriminate |]). constructor.
  - repeat (constructor; [simpl; intuition discriminate |]). constructor.
Defined.
